(** * tnf generate: a shallow embedding of the scaffolding commands

    The development follows the generator module of the repository
    (dispatcher [generate], [generatePage], [updateConfigFile],
    [writeFileWithConfirmation], [generateTailwindcss], [generateEntry],
    [processImportPaths]) and the context-based dispatcher of
    [src/generate/generate.ts].

    JavaScript strings are lists of characters.  The file system, the
    interactive prompts, the configuration loader, the synchronisation step
    and the colour generator are collaborators of the code: the file system
    is an explicit store, the others are answers supplied by an environment
    record, and every call to one of them is recorded in a trace. *)

From Stdlib Require Import Ascii String DecimalString.
From stdpp Require Import gmap strings list fin_maps.
From Equations Require Import Equations.

Set Warnings "-register-all".

Local Open Scope char_scope.
Local Open Scope list_scope.

(** A JavaScript string. *)
Abbreviation str := (list ascii).

(** String literals of the source are written [$"..."]. *)
Notation "$ s" := (list_ascii_of_string s%string) (at level 1, format "$ s").

(** ** String primitives used by the source *)
Module Str.

Definition eqb (a b : str) : bool := bool_decide (a = b).

(** [s.startsWith(p)] *)
Fixpoint startsWith (p s : str) : bool :=
  match p, s with
  | [], _ => true
  | a :: p', b :: s' => bool_decide (a = b) && startsWith p' s'
  | _ :: _, [] => false
  end.

(** [parts.join(sep)] *)
Fixpoint join (sep : str) (parts : list str) : str :=
  match parts with
  | [] => []
  | [p] => p
  | p :: rest => p ++ sep ++ join sep rest
  end.

(** [s.split(c)] for a one-character separator: never the empty list. *)
Fixpoint split (c : ascii) (s : str) : list str :=
  match s with
  | [] => [[]]
  | a :: s' =>
      if bool_decide (a = c) then [] :: split c s'
      else match split c s' with
           | seg :: segs => (a :: seg) :: segs
           | [] => [[a]]
           end
  end.

(** The longest suffix that starts with a character rejected by [f]. *)
Fixpoint dropWhile (f : ascii -> bool) (s : str) : str :=
  match s with
  | [] => []
  | c :: s' => if f c then dropWhile f s' else s
  end.

(** ASCII [toUpperCase] of one character. *)
Definition upper (c : ascii) : ascii :=
  let n := nat_of_ascii c in
  if (97 <=? n)%nat && (n <=? 122)%nat then ascii_of_nat (n - 32) else c.

End Str.

(** ** Node's [path] module (POSIX flavour)

    [path] is a library of the platform, not code of the repository.  Its
    functions are modelled on the segments between slashes, which is what
    the character loops of the library compute.  [cwd] stands for
    [process.cwd()]. *)
Module Path.

Definition dot : str := $".".
Definition dotdot : str := $"..".
Definition sep : str := $"/".

Definition isAbsolute (p : str) : bool := Str.startsWith sep p.

(** One step of [normalizeString]: [stack] holds the segments kept so far,
    last one first. *)
Definition norm_step (allowAboveRoot : bool) (stack : list str) (seg : str)
  : list str :=
  if Str.eqb seg [] || Str.eqb seg dot then stack
  else if Str.eqb seg dotdot then
    match stack with
    | top :: below =>
        if Str.eqb top dotdot
        then (if allowAboveRoot then dotdot :: stack else stack)
        else below
    | [] => if allowAboveRoot then [dotdot] else []
    end
  else seg :: stack.

Definition norm_from (allowAboveRoot : bool) (stack : list str)
  (segs : list str) : list str :=
  fold_left (norm_step allowAboveRoot) segs stack.

(** The segments of [normalizeString(path, allowAboveRoot)]. *)
Definition normalizeSegs (path : str) (allowAboveRoot : bool) : list str :=
  rev (norm_from allowAboveRoot [] (Str.split "/" path)).

Definition normalizeString (path : str) (allowAboveRoot : bool) : str :=
  Str.join sep (normalizeSegs path allowAboveRoot).

(** [path.normalize] *)
Definition normalize (path : str) : str :=
  match path with
  | [] => dot
  | _ =>
      let isAbs := isAbsolute path in
      let trailing := Str.startsWith sep (rev path) in
      let p := normalizeString path (negb isAbs) in
      match p with
      | [] => if isAbs then sep else if trailing then $"./" else dot
      | _ =>
          let p := if trailing then p ++ sep else p in
          if isAbs then sep ++ p else p
      end
  end.

(** [path.join(...args)]: empty arguments are skipped. *)
Definition join (args : list str) : str :=
  match filter (fun a : str => a <> []) args with
  | [] => dot
  | parts => normalize (Str.join sep parts)
  end.

(** The loop of [path.resolve]: arguments from right to left, then the
    working directory, until an absolute one is met. *)
Fixpoint resolve_loop (rargs : list str) (acc : str) : str * bool :=
  match rargs with
  | [] => (acc, false)
  | p :: rest =>
      match p with
      | [] => resolve_loop rest acc
      | _ =>
          let acc' := p ++ sep ++ acc in
          if isAbsolute p then (acc', true) else resolve_loop rest acc'
      end
  end.

(** Segments of the resolved path, and whether it is absolute. *)
Definition resolveSegs (cwd : str) (args : list str) : list str * bool :=
  let '(p, abs) := resolve_loop (rev args ++ [cwd]) [] in
  (normalizeSegs p (negb abs), abs).

(** [path.resolve(...args)] *)
Definition resolve (cwd : str) (args : list str) : str :=
  let '(segs, abs) := resolveSegs cwd args in
  if abs then sep ++ Str.join sep segs
  else match Str.join sep segs with [] => dot | p => p end.

(** Removes the common leading segments of two paths. *)
Fixpoint strip_common (f t : list str) : list str * list str :=
  match f, t with
  | a :: f', b :: t' =>
      if Str.eqb a b then strip_common f' t' else (f, t)
  | _, _ => (f, t)
  end.

(** [path.relative(from, to)]: both arguments are resolved, one [..] is
    produced for every segment of [from] below the common directory, and
    the remaining segments of [to] follow.  The working directory of a
    process is an absolute path, and so are the resolved paths; the
    statements about [relative] assume it. *)
Definition relative (cwd from to : str) : str :=
  let f := fst (resolveSegs cwd [from]) in
  let t := fst (resolveSegs cwd [to]) in
  let '(f', t') := strip_common f t in
  Str.join sep (map (fun _ => dotdot) f' ++ t').

(** [path.dirname]: the scan runs from the end of the path down to index 1;
    [below] is that part of the path, reversed. *)
Definition dirname (path : str) : str :=
  match path with
  | [] => dot
  | c0 :: rest =>
      let hasRoot := bool_decide (c0 = "/") in
      let noEnd := if hasRoot then sep else dot in
      match Str.dropWhile (fun c => bool_decide (c = "/")) (rev rest) with
      | [] => noEnd
      | below =>
          match Str.dropWhile (fun c => bool_decide (c <> "/")) below with
          | [] => noEnd
          | _ :: before =>
              match before with
              | [] => if hasRoot then $"//" else [c0]
              | _ => c0 :: rev before
              end
          end
      end
  end.

End Path.

(** ** The import-path rewriter *)

(** The regular expression of [processImportPaths]: the word from, a space,
    a single or double quote, one or more characters none of which is a
    quote (the capture group), and a single or double quote; with the
    global flag. *)
Module FromRegex.

Definition squote : ascii := "'".
Definition dquote : ascii := "034".

(** The character class of the two quotes. *)
Definition isQuote (c : ascii) : bool :=
  bool_decide (c = squote) || bool_decide (c = dquote).

(** The negated class, repeated greedily: the longest prefix without a
    quote, and what follows it. *)
Fixpoint spanBody (s : str) : str * str :=
  match s with
  | [] => ([], [])
  | c :: s' =>
      if isQuote c then ([], s)
      else let '(b, r) := spanBody s' in (c :: b, r)
  end.

(** A piece of the subject string: a character outside every match, or one
    match with its opening quote, its capture group and its closing
    quote. *)
Inductive chunk :=
| Lit (c : ascii)
| Match (q : ascii) (importPath : str) (q' : ascii).

(** The text a chunk stands for in the subject string. *)
Definition chunkText (ch : chunk) : str :=
  match ch with
  | Lit c => [c]
  | Match q p q' => $"from " ++ q :: p ++ [q']
  end.

(** An attempt to match at the start of [s]; the result carries the rest of
    the string after the match.  The capture group takes every character up
    to the next quote, so a shorter capture never succeeds where the longest
    fails. *)
Definition matchHere (s : str) : option (chunk * str) :=
  if Str.startsWith $"from " s then
    match drop 5 s with
    | q :: t =>
        if isQuote q then
          match spanBody t with
          | (c :: b, q' :: rest) => Some (Match q (c :: b) q', rest)
          | _ => None
          end
        else None
    | [] => None
    end
  else None.

Definition inspect {A} (a : A) : {b : A | a = b} := exist _ a eq_refl.

(** The matches of the global regular expression, left to right: after a
    match the scan resumes behind it, otherwise one character further. *)
Equations? chunks (s : str) : list chunk by wf (length s) lt :=
  chunks s with inspect (matchHere s) := {
    | exist _ (Some (ch, rest)) Hm => ch :: chunks rest
    | exist _ None _ with s := {
        | [] => []
        | c :: s' => Lit c :: chunks s' } }.
Proof.
  revert Hm. unfold matchHere. destruct (Str.startsWith _ s); [|done].
  assert (Hd : length (drop 5 s) <= length s) by (rewrite length_drop; lia).
  destruct (drop 5 s) as [|q t]; [done|].
  destruct (isQuote q); [|done].
  destruct (spanBody t) as [body r] eqn:Hsp.
  destruct body as [|c0 body]; [done|]. destruct r as [|q' r]; [done|].
  intros [= <- <-].
  assert (Hlen : forall u b r0,
             spanBody u = (b, r0) -> length r0 <= length u).
  { clear. induction u as [|x u IH]; intros b r0; simpl.
    - intros [= <- <-]. simpl. lia.
    - destruct (isQuote x); [intros [= <- <-]; simpl; lia|].
      destruct (spanBody u) as [b' r']. intros [= <- <-].
      specialize (IH _ _ eq_refl). lia. }
  apply Hlen in Hsp. simpl in *. lia.
Qed.

(** [s.replace(regex, callback)]: the callback receives the matched text and
    the capture group. *)
Definition replace (callback : str -> str -> str) (s : str) : str :=
  flat_map (fun ch =>
              match ch with
              | Lit c => [c]
              | Match _ p _ => callback (chunkText ch) p
              end) (chunks s).

End FromRegex.

(** The specifier written in place of the relative specifier [importPath]:
    [normalizedPath] of the source. *)
Definition normalizedPath (cwd sourcePath destPath importPath : str) : str :=
  let relativePath :=
    Path.relative cwd (Path.dirname destPath)
      (Path.resolve cwd [Path.dirname sourcePath; importPath]) in
  if Str.startsWith $"." relativePath then relativePath
  else $"./" ++ relativePath.

(** The callback given to [replace]. *)
Definition rewriteImport (cwd sourcePath destPath : str)
  (matched importPath : str) : str :=
  if Str.startsWith $"." importPath then
    $"from '" ++ normalizedPath cwd sourcePath destPath importPath ++ $"'"
  else matched.

Definition processImportPaths (cwd content sourcePath destPath : str) : str :=
  FromRegex.replace (rewriteImport cwd sourcePath destPath) content.

(** ** Configuration values and their serialisation *)
Module Json.

(** A value [JSON.stringify] can print.  Numbers are the integral ones. *)
Inductive json :=
| JNull
| JBool (b : bool)
| JNum (n : Z)
| JStr (s : str)
| JArr (items : list json)
| JObj (fields : list (str * json)).

Definition dquote : ascii := "034".
Definition backslash : ascii := "\".
Definition newline : ascii := "010".

Definition hexDigit (n : nat) : ascii :=
  match n with
  | 0 => "0" | 1 => "1" | 2 => "2" | 3 => "3" | 4 => "4" | 5 => "5"
  | 6 => "6" | 7 => "7" | 8 => "8" | 9 => "9" | 10 => "a" | 11 => "b"
  | 12 => "c" | 13 => "d" | 14 => "e" | _ => "f"
  end.

(** The escape of one character inside a JSON string. *)
Definition escapeChar (c : ascii) : str :=
  let n := nat_of_ascii c in
  if bool_decide (c = dquote) then [backslash; dquote]
  else if bool_decide (c = backslash) then [backslash; backslash]
  else if bool_decide (n = 8) then [backslash; "b"]
  else if bool_decide (n = 9) then [backslash; "t"]
  else if bool_decide (n = 10) then [backslash; "n"]
  else if bool_decide (n = 12) then [backslash; "f"]
  else if bool_decide (n = 13) then [backslash; "r"]
  else if bool_decide (n < 32) then
    [backslash; "u"; "0"; "0"; hexDigit (n / 16); hexDigit (n mod 16)]
  else [c].

(** [QuoteJSONString] *)
Definition quote (s : str) : str :=
  dquote :: flat_map escapeChar s ++ [dquote].

Definition decimal (n : Z) : str :=
  list_ascii_of_string (DecimalString.NilZero.string_of_int (Z.to_int n)).

(** [JSON.stringify(v, null, 2)] at the indentation [indent]; [key] prints
    a property name ([quote] in JavaScript). *)
Fixpoint stringifyWith (key : str -> str) (indent : str) (v : json) : str :=
  let inner := indent ++ $"  " in
  let between := $"," ++ newline :: inner in
  match v with
  | JNull => $"null"
  | JBool true => $"true"
  | JBool false => $"false"
  | JNum n => decimal n
  | JStr s => quote s
  | JArr [] => $"[]"
  | JArr items =>
      $"[" ++ newline :: inner
        ++ Str.join between (map (stringifyWith key inner) items)
        ++ newline :: indent ++ $"]"
  | JObj [] => $"{}"
  | JObj fields =>
      $"{" ++ newline :: inner
        ++ Str.join between
             (map (fun kv => key (fst kv) ++ $": "
                               ++ stringifyWith key inner (snd kv)) fields)
        ++ newline :: indent ++ $"}"
  end.

Definition stringify (v : json) : str := stringifyWith quote [] v.

(** Property read, and property write as JavaScript orders own keys: an
    existing key keeps its place, a new key goes last. *)
Fixpoint getProp (k : str) (o : list (str * json)) : option json :=
  match o with
  | [] => None
  | (k', v) :: o' => if Str.eqb k k' then Some v else getProp k o'
  end.

Fixpoint setProp (k : str) (v : json) (o : list (str * json))
  : list (str * json) :=
  match o with
  | [] => [(k, v)]
  | (k', v') :: o' =>
      if Str.eqb k k' then (k, v) :: o' else (k', v') :: setProp k v o'
  end.

(** JavaScript truthiness. *)
Definition truthy (v : json) : bool :=
  match v with
  | JNull => false
  | JBool b => b
  | JNum n => negb (bool_decide (n = 0%Z))
  | JStr s => negb (Str.eqb s [])
  | JArr _ | JObj _ => true
  end.

End Json.
Export Json(json, JNull, JBool, JNum, JStr, JArr, JObj).

(** The type [Config] of the configuration module: an object. *)
Abbreviation Config := (list (str * json)).

(** The regular expression of [updateConfigFile]: a double quote, one or more
    characters other than a double quote (the capture group), a double quote
    and a colon; with the global flag.  The replacement is the capture group
    followed by a colon. *)
Module KeyRegex.

Definition dquote : ascii := "034".

Fixpoint spanKey (s : str) : str * str :=
  match s with
  | [] => ([], [])
  | c :: s' =>
      if bool_decide (c = dquote) then ([], s)
      else let '(b, r) := spanKey s' in (c :: b, r)
  end.

(** A match at the start of [s]: the capture group and the rest of the
    string after the colon. *)
Definition matchHere (s : str) : option (str * str) :=
  match s with
  | q :: t =>
      if bool_decide (q = dquote) then
        match spanKey t with
        | (c :: b, _ :: colon :: rest) =>
            if bool_decide (colon = ":") then Some (c :: b, rest) else None
        | _ => None
        end
      else None
  | [] => None
  end.

Definition inspect {A} (a : A) : {b : A | a = b} := exist _ a eq_refl.

(** [s.replace(regex, '$1:')] *)
Equations? unquoteKeys (s : str) : str by wf (length s) lt :=
  unquoteKeys s with inspect (matchHere s) := {
    | exist _ (Some (k, rest)) Hm => k ++ ":" :: unquoteKeys rest
    | exist _ None _ with s := {
        | [] => []
        | c :: s' => c :: unquoteKeys s' } }.
Proof.
  revert Hm. unfold matchHere. destruct s as [|q t]; [done|].
  destruct (bool_decide (q = dquote)); [|done].
  destruct (spanKey t) as [body r] eqn:Hsp.
  destruct body as [|c0 body]; [done|].
  destruct r as [|q' [|colon r]]; [done|done|].
  destruct (bool_decide (colon = ":")); [|done].
  intros [= <- <-].
  assert (Hlen : forall u b r0,
             spanKey u = (b, r0) -> length r0 <= length u).
  { clear. induction u as [|x u IH]; intros b r0; simpl.
    - intros [= <- <-]. simpl. lia.
    - destruct (bool_decide (x = dquote)); [intros [= <- <-]; simpl; lia|].
      destruct (spanKey u) as [b' r']. intros [= <- <-].
      specialize (IH _ _ eq_refl). lia. }
  apply Hlen in Hsp. simpl in *. lia.
Qed.

End KeyRegex.

(** ** The world the commands run in *)

Inductive error :=
| AssertionError (message : str)
| Error (message : str)
| TypeError (message : str)
| IOError (text : str).

Inductive outcome (A : Type) :=
| Ret (a : A)
| Throw (e : error).
Arguments Ret {A} a.
Arguments Throw {A} e.

(** The files with their contents, and the directories. *)
Record FileSystem := {
  files : gmap str str;
  dirs : gset str;
}.

(** Calls to the collaborators, in the order they are made.  [EvWrite]
    records an attempted write, whether or not it succeeds. *)
Inductive event :=
| EvSelect (message : str) (options : list str)
| EvConfirm (message : str)
| EvLoadConfig (cwd : str)
| EvSync (cwd tmpPath mode : str)
| EvEnsureDir (path : str)
| EvRead (path : str)
| EvWrite (path content : str)
| EvLog (message : str).

(** [config] is the configuration object the handler receives in its
    options: the handlers assign to its properties, so it is a cell of the
    state. *)
Record World := {
  fs : FileSystem;
  config : Config;
  trace : list event;
}.

(** What a confirmation prompt resolves to: a boolean, or the cancel symbol
    of the prompt library. *)
Inductive answer := Yes | No | Cancelled.

(** The collaborators.  [env_select] answers [None] for the cancel symbol;
    [env_writeFault] gives, for a path whose write fails, the text the thrown
    error prints as; [CONFIG_FILE] and [FRAMEWORK_NAME] are the constants of
    the constants module. *)
Record Env := {
  env_processCwd : str;
  env_select : str -> list str -> option str;
  env_confirm : str -> answer;
  env_loadConfig : str -> Config;
  env_sync : Config -> str -> str -> str -> FileSystem
             -> option error * FileSystem;
  env_writeFault : str -> option str;
  env_randomColor : str;
  CONFIG_FILE : str;
  FRAMEWORK_NAME : str;
}.

(** Computations over the world that return or throw. *)
Definition M (A : Type) : Type := World -> outcome A * World.

Definition ret {A} (a : A) : M A := fun w => (Ret a, w).
Definition throw {A} (e : error) : M A := fun w => (Throw e, w).
Definition bind {A B} (m : M A) (k : A -> M B) : M B :=
  fun w => match m w with
           | (Ret a, w') => k a w'
           | (Throw e, w') => (Throw e, w')
           end.
(** [try { m } catch (error) { h error }] *)
Definition tryCatch {A} (m : M A) (h : error -> M A) : M A :=
  fun w => match m w with
           | (Ret a, w') => (Ret a, w')
           | (Throw e, w') => h e w'
           end.

Notation "x <- c1 ;; c2" := (bind c1 (fun x => c2))
  (at level 100, c1 at next level, right associativity).
Notation "c1 ;; c2" := (bind c1 (fun _ => c2))
  (at level 100, right associativity).

Definition emit (e : event) : M unit :=
  fun w => (Ret tt, {| fs := fs w; config := config w;
                       trace := trace w ++ [e] |}).
Definition getConfig : M Config := fun w => (Ret (config w), w).
Definition setConfig (c : Config) : M unit :=
  fun w => (Ret tt, {| fs := fs w; config := c; trace := trace w |}).
Definition getFs : M FileSystem := fun w => (Ret (fs w), w).
Definition setFs (f : FileSystem) : M unit :=
  fun w => (Ret tt, {| fs := f; config := config w; trace := trace w |}).

(** [assert(cond, message)] *)
Definition assert (cond : bool) (message : str) : M unit :=
  if cond then ret tt else throw (AssertionError message).

(** The text [error] prints as in a template literal. *)
Definition errorText (e : error) : str :=
  match e with
  | AssertionError m => $"AssertionError [ERR_ASSERTION]: " ++ m
  | Error m => $"Error: " ++ m
  | TypeError m => $"TypeError: " ++ m
  | IOError t => t
  end.

(** The options of a handler.  Their field [config] is the cell [config] of
    the world; [type] and [name] may be missing. *)
Record GenerateOptions := {
  cwd : str;
  type : option str;
  name : option str;
}.

Record FileOperationResult := {
  path : str;
  success : bool;
  message : str;
}.

(** A string-valued option is falsy when it is absent or empty. *)
Definition falsy (o : option str) : bool :=
  match o with
  | None | Some [] => true
  | Some _ => false
  end.

Definition text (o : option str) : str := default [] o.

Section Generate.

Context (env : Env).

(** *** The file-system layer *)

Definition existsIn (f : FileSystem) (p : str) : bool :=
  bool_decide (is_Some (files f !! p)) || bool_decide (p ∈ dirs f).

(** [fs.existsSync] *)
Definition existsSync (p : str) : M bool :=
  f <- getFs ;; ret (existsIn f p).

(** [fs.ensureDirSync] *)
Definition ensureDirSync (p : str) : M unit :=
  emit (EvEnsureDir p) ;;
  f <- getFs ;;
  setFs {| files := files f; dirs := {[ p ]} ∪ dirs f |}.

(** [fs.writeFile] and [fs.writeFileSync]: the file gets the content, or
    the write throws and the file system stays as it is. *)
Definition writeFile (p content : str) : M unit :=
  emit (EvWrite p content) ;;
  match env_writeFault env p with
  | Some t => throw (IOError t)
  | None =>
      f <- getFs ;;
      setFs {| files := <[p := content]> (files f); dirs := dirs f |}
  end.

(** [fs.readFile(p, 'utf-8')] *)
Definition readFile (p : str) : M str :=
  emit (EvRead p) ;;
  f <- getFs ;;
  match files f !! p with
  | Some c => ret c
  | None => throw (IOError ($"Error: cannot read " ++ p))
  end.

Definition log (m : str) : M unit := emit (EvLog m).

Definition confirm (m : str) : M answer :=
  emit (EvConfirm m) ;; ret (env_confirm env m).

Definition select (m : str) (options : list str) : M (option str) :=
  emit (EvSelect m options) ;; ret (env_select env m options).

Definition loadConfig (dir : str) : M Config :=
  emit (EvLoadConfig dir) ;; ret (env_loadConfig env dir).

Definition sync (c : Config) (dir tmpPath mode : str) : M unit :=
  emit (EvSync dir tmpPath mode) ;;
  f <- getFs ;;
  match env_sync env c dir tmpPath mode f with
  | (Some e, f') => setFs f' ;; throw e
  | (None, f') => setFs f'
  end.

(** *** generatePage *)

Definition componentName (pageName : str) : str :=
  match pageName with
  | [] => []
  | c :: rest => Str.upper c :: rest
  end.

Definition pageContent (pageName : str) : str :=
  $"import React from 'react';
import { createFileRoute } from '@umijs/tnf/router';
import styles from './" ++ pageName ++ $".module.less';

export const Route = createFileRoute('/" ++ pageName ++ $"')({
  component: " ++ componentName pageName ++ $",
});

function " ++ componentName pageName ++ $"() {
  return (
    <div className={styles.container}>
      <h3>Welcome to " ++ componentName pageName ++ $" Page!</h3>
    </div>
  );
}
".

Definition styleContent : str :=
  $".container {
  color: " ++ env_randomColor env ++ $";
}
".

Definition pagesDir (opts : GenerateOptions) : str :=
  Path.join [cwd opts; $"src/pages"].
Definition pagePath (opts : GenerateOptions) : str :=
  Path.join [pagesDir opts; text (name opts) ++ $".tsx"].
Definition styleModulePath (opts : GenerateOptions) : str :=
  Path.join [pagesDir opts; text (name opts) ++ $".module.less"].

Definition generatePage (opts : GenerateOptions) : M unit :=
  assert (negb (falsy (name opts))) $"Name is required" ;;
  let pageName := text (name opts) in
  pageExists <- existsSync (pagePath opts) ;;
  styleExists <- existsSync (styleModulePath opts) ;;
  assert (negb pageExists && negb styleExists)
    ($"Page " ++ pageName ++ $" already exists.") ;;
  ensureDirSync (pagesDir opts) ;;
  writeFile (pagePath opts) (pageContent pageName) ;;
  writeFile (styleModulePath opts) styleContent ;;
  log ($"Generated page at: " ++ pagePath opts) ;;
  log ($"Generated styles at: " ++ styleModulePath opts).

(** *** updateConfigFile *)

Definition configPath (dir : str) : str :=
  Path.join [dir; CONFIG_FILE env ++ $".ts"].

Definition configContent (c : Config) : str :=
  $"export default " ++ KeyRegex.unquoteKeys (Json.stringify (JObj c)).

Definition updateConfigFile (dir : str) (c : Config)
  : M FileOperationResult :=
  tryCatch
    (writeFile (configPath dir) (configContent c) ;;
     ret {| path := configPath dir; success := true;
            message := $"Updated config file at: "
                         ++ CONFIG_FILE env ++ $".ts" |})
    (fun e =>
       ret {| path := configPath dir; success := false;
              message := $"Failed to update config file: "
                           ++ errorText e |}).

(** *** writeFileWithConfirmation *)

Definition skipped (filePath : str) : FileOperationResult :=
  {| path := filePath; success := false;
     message := $"Skipped writing to " ++ filePath |}.

Definition tryWrite (filePath content : str) : M FileOperationResult :=
  tryCatch
    (writeFile filePath content ;;
     ret {| path := filePath; success := true;
            message := $"Generated file at: " ++ filePath |})
    (fun e =>
       ret {| path := filePath; success := false;
              message := $"Failed to write file: " ++ errorText e |}).

(** The cancel symbol is truthy: only the answer [false] skips. *)
Definition writeFileWithConfirmation (filePath content confirmMessage : str)
  : M FileOperationResult :=
  present <- existsSync filePath ;;
  if present then
    shouldOverwrite <- confirm confirmMessage ;;
    match shouldOverwrite with
    | No => ret (skipped filePath)
    | Yes | Cancelled => tryWrite filePath content
    end
  else tryWrite filePath content.

(** *** generateTailwindcss *)

Definition tailwindConfig : str :=
  $"/** @type {import('tailwindcss').Config} */
export default {
  content: [
    " ++ Json.dquote :: $"./src/pages/**/*.{js,ts,jsx,tsx}" ++ Json.dquote :: $",
    " ++ Json.dquote :: $"./src/components/**/*.{js,ts,jsx,tsx}" ++ Json.dquote :: $"
  ],
  theme: {
    extend: {},
  },
  plugins: [],
}".

Definition tailwindCSS : str :=
  $"@tailwind base;
@tailwind components;
@tailwind utilities;".

Definition tailwindConfigPath (dir : str) : str :=
  Path.join [dir; $"tailwind.config.js"].
Definition tailwindCSSPath (dir : str) : str :=
  Path.join [dir; $"src/tailwind.css"].

Definition tailwindConfigQuestion : str :=
  $"Tailwind config file already exists, do you want to overwrite?".
Definition tailwindCSSQuestion : str :=
  $"Tailwind CSS file already exists, do you want to overwrite?".

(** Logs the messages of the operations that succeeded. *)
Fixpoint logSuccesses (results : list FileOperationResult) : M unit :=
  match results with
  | [] => ret tt
  | r :: rest =>
      (if success r then log (message r) else ret tt) ;; logSuccesses rest
  end.

(** The two writes of [Promise.all] go to different paths and are run one
    after the other here. *)
Definition generateTailwindcss (opts : GenerateOptions) : M unit :=
  ensureDirSync (Path.join [cwd opts; $"src"]) ;;
  r1 <- writeFileWithConfirmation (tailwindConfigPath (cwd opts))
          tailwindConfig tailwindConfigQuestion ;;
  r2 <- writeFileWithConfirmation (tailwindCSSPath (cwd opts))
          tailwindCSS tailwindCSSQuestion ;;
  c <- getConfig ;;
  setConfig (Json.setProp $"tailwindcss" (JBool true) c) ;;
  c' <- getConfig ;;
  configResult <- updateConfigFile (cwd opts) c' ;;
  logSuccesses ([r1; r2] ++ [configResult]).

(** *** generateEntry *)

Definition tnfPath (dir : str) : str :=
  Path.join [dir; $"src/." ++ FRAMEWORK_NAME env].
Definition clientSrcPath (dir : str) : str :=
  Path.join [tnfPath dir; $"client.tsx"].
Definition clientDestPath (dir : str) : str :=
  Path.join [dir; $"src/client.tsx"].

Definition templateMissing : error :=
  Error $"client.tsx template not found in .tnf directory".

Definition entryQuestion : str :=
  $"client.tsx already exists. Do you want to overwrite it?".

(** The own properties an object spread copies.  The type [Config] lets
    [entry] be an object or absent. *)
Definition spread (v : option json) : list (str * json) :=
  match v with
  | Some (JObj fields) => fields
  | _ => []
  end.

Definition withClient (c : Config) : Config :=
  Json.setProp $"entry"
    (JObj (Json.setProp $"client" (JStr $"src/client.tsx")
             (spread (Json.getProp $"entry" c)))) c.

Definition generateEntry (opts : GenerateOptions) : M unit :=
  let dir := cwd opts in
  tnfPresent <- existsSync (tnfPath dir) ;;
  (if tnfPresent then ret tt
   else c <- loadConfig dir ;;
        sync c dir (tnfPath dir) $"development") ;;
  templatePresent <- existsSync (clientSrcPath dir) ;;
  (if templatePresent then ret tt else throw templateMissing) ;;
  content <- readFile (clientSrcPath dir) ;;
  let processedContent :=
    processImportPaths (env_processCwd env) content
      (clientSrcPath dir) (clientDestPath dir) in
  writeResult <- writeFileWithConfirmation (clientDestPath dir)
                   processedContent entryQuestion ;;
  if success writeResult then
    c <- getConfig ;;
    setConfig (withClient c) ;;
    c' <- getConfig ;;
    configResult <- updateConfigFile dir c' ;;
    log (message writeResult) ;;
    if success configResult then log (message configResult) else ret tt
  else ret tt.

(** *** The dispatcher *)

Definition generateCommands : list str := [$"entry"; $"tailwindcss"].

Definition commandHandler : list (str * (GenerateOptions -> M unit)) :=
  [($"page", generatePage);
   ($"tailwindcss", generateTailwindcss);
   ($"entry", generateEntry)].

Fixpoint ownHandler (k : str)
  (table : list (str * (GenerateOptions -> M unit)))
  : option (GenerateOptions -> M unit) :=
  match table with
  | [] => None
  | (k', h) :: rest => if Str.eqb k k' then Some h else ownHandler k rest
  end.

(** The properties [commandHandler] inherits from [Object.prototype], which
    the operator [in] also finds, with whether the call of the inherited
    value on the options returns. *)
Definition inherited : list (str * bool) :=
  [($"constructor", true); ($"hasOwnProperty", true);
   ($"isPrototypeOf", true); ($"propertyIsEnumerable", true);
   ($"toString", true); ($"toLocaleString", true); ($"valueOf", true);
   ($"__lookupGetter__", true); ($"__lookupSetter__", true);
   ($"__defineGetter__", false); ($"__defineSetter__", false);
   ($"__proto__", false)].

Fixpoint inheritedCall (k : str) (table : list (str * bool))
  : option bool :=
  match table with
  | [] => None
  | (k', b) :: rest => if Str.eqb k k' then Some b else inheritedCall k rest
  end.

(** [rawConfig.entry.client = ...] when [rawConfig.entry] is truthy,
    [rawConfig.entry = { client: ... }] otherwise.  On a truthy value that
    is no object (which the type [Config] excludes) the assignment throws
    in strict mode, or is not part of the serialised value for an array. *)
Definition forceClient (rawConfig : Config) : M Config :=
  let client := JStr $"src/client.tsx" in
  match Json.getProp $"entry" rawConfig with
  | Some (JObj e) =>
      ret (Json.setProp $"entry"
             (JObj (Json.setProp $"client" client e)) rawConfig)
  | Some (JArr _) => ret rawConfig
  | Some v =>
      if Json.truthy v
      then throw (TypeError $"Cannot create property 'client'")
      else ret (Json.setProp $"entry" (JObj [($"client", client)])
                  rawConfig)
  | None =>
      ret (Json.setProp $"entry" (JObj [($"client", client)]) rawConfig)
  end.

(** The handler runs on the options with [config] replaced by the loaded
    configuration.  The source does not await the handler; the model runs
    it to its end and gives its outcome. *)
Definition generate (opts : GenerateOptions) : M unit :=
  selectedType <-
    (if falsy (type opts) then
       select $"Select the command to initialize:" generateCommands
     else ret (type opts)) ;;
  match selectedType with
  | None => throw (TypeError $"Cannot convert a Symbol value to a string")
  | Some t =>
      match ownHandler t commandHandler, inheritedCall t inherited with
      | None, None => throw (Error ($"Unknown command: " ++ t))
      | Some h, _ =>
          rawConfig <- loadConfig (cwd opts) ;;
          rawConfig' <- forceClient rawConfig ;;
          setConfig rawConfig' ;;
          h opts
      | None, Some returns =>
          rawConfig <- loadConfig (cwd opts) ;;
          rawConfig' <- forceClient rawConfig ;;
          setConfig rawConfig' ;;
          if returns then ret tt
          else throw (TypeError $"commandHandler[selectedType]")
      end
  end.

End Generate.

(** ** The dispatcher of [src/generate/generate.ts] *)
Module ContextDispatch.

(** The positional arguments [context.argv._]. *)
Record Context := { argv_ : list str }.

Section Dispatch.

(** The handlers of the modules [generate_page] and
    [generate_tailwindcss]. *)
Context (generatePage generateTailwindcss : Context -> M unit).

Definition generate (context : Context) : M unit :=
  let type := argv_ context !! 1 in
  let context' := {| argv_ := drop 2 (argv_ context) |} in
  if falsy type then throw (Error $"Not implemented")
  else if Str.eqb (text type) $"page" then generatePage context'
  else if Str.eqb (text type) $"tailwindcss"
       then generateTailwindcss context'
  else throw (Error ($"Unknown type: " ++ text type)).

End Dispatch.

End ContextDispatch.

(** * Vocabulary of the statements *)

(** Segments and stacks of the path functions. *)
Module PathSpec.

(** A segment that [normalizeString] keeps as a name. *)
Definition name_seg (seg : str) : Prop :=
  seg <> [] /\ seg <> Path.dot /\ seg <> Path.dotdot /\ "/" ∉ seg.

(** The stack [normalizeString] reaches on the path [resolve] collects. *)
Definition resolveStack (cwd : str) (args : list str) : list str :=
  Path.norm_from false []
    (Str.split "/" (fst (Path.resolve_loop (rev args ++ [cwd]) []))).

(** The segments of [relative cwd from to]: the way up from [from] and the
    way down to [to]. *)
Definition relativeSegs (cwd from to : str) : list str :=
  let f := rev (resolveStack cwd [from]) in
  let t := rev (resolveStack cwd [to]) in
  replicate (length (fst (Path.strip_common f t))) Path.dotdot
    ++ snd (Path.strip_common f t).

(** A relative path as [processImportPaths] writes it: as it is when it
    starts with a dot, behind a dot and a slash otherwise. *)
Definition dotted (relativePath : str) : str :=
  if Str.startsWith $"." relativePath then relativePath
  else $"./" ++ relativePath.

(** The text after the last slash of a path. *)
Definition lastSeg (p : str) : option str := last (Str.split "/" p).

End PathSpec.

(** Chunks of a content and what the rewriter makes of them. *)
Module RegexSpec.
Import FromRegex.

(** A string without a quote character. *)
Definition quoteFree (s : str) : Prop :=
  Forall (fun c => isQuote c = false) s.

(** The number of quote characters of a string. *)
Definition quotes (s : str) : nat :=
  length (filter (fun c => isQuote c = true) s).

(** What [processImportPaths] puts in the place of a chunk. *)
Definition rewriteChunk (cwd sourcePath destPath : str) (ch : chunk) : str :=
  match ch with
  | Lit c => [c]
  | Match _ p _ => rewriteImport cwd sourcePath destPath (chunkText ch) p
  end.

(** The chunk found where a chunk was rewritten. *)
Definition rewrittenChunk (cwd sourcePath destPath : str) (ch : chunk)
  : chunk :=
  match ch with
  | Lit c => Lit c
  | Match q p q' =>
      if Str.startsWith $"." p
      then Match "'" (normalizedPath cwd sourcePath destPath p) "'"
      else ch
  end.

End RegexSpec.

(** The writes attempted in a trace, in order. *)
Fixpoint writes (tr : list event) : list (str * str) :=
  match tr with
  | [] => []
  | EvWrite p c :: rest => (p, c) :: writes rest
  | _ :: rest => writes rest
  end.

(** The calls of the synchronisation step in a trace, in order. *)
Fixpoint syncs (tr : list event) : list (str * str * str) :=
  match tr with
  | [] => []
  | EvSync dir tmpPath mode :: rest => (dir, tmpPath, mode) :: syncs rest
  | _ :: rest => syncs rest
  end.

(** The reads in a trace, in order. *)
Fixpoint reads (tr : list event) : list str :=
  match tr with
  | [] => []
  | EvRead p :: rest => p :: reads rest
  | _ :: rest => reads rest
  end.


(** The file system [generateEntry] reads the template from: the one it
    starts in when the framework directory exists, the one the
    synchronisation step leaves otherwise; with the error that step throws,
    if any. *)
Definition afterSync (env : Env) (opts : GenerateOptions) (w : World)
  : option error * FileSystem :=
  let dir := cwd opts in
  if existsIn (fs w) (tnfPath env dir) then (None, fs w)
  else env_sync env (env_loadConfig env dir) dir (tnfPath env dir)
         $"development" (fs w).



(** Follows the spec's words: the configuration file is to hold, after
    [export default], the JSON serialisation of the object with the object
    keys unquoted, and everything else as [JSON.stringify] prints it. *)
Definition specConfigContent (c : Config) : str :=
  $"export default " ++ Json.stringifyWith (fun k => k) [] (JObj c).

(** A configuration with a string value that holds JSON text. *)
Definition jsonValuedConfig : Config :=
  [($"define",
    JObj [($"API",
           JStr ($"{" ++ Json.dquote :: $"a" ++ Json.dquote :: $":1}"))])].

(** An environment and a world to run the commands in: the prompt answers
    [tailwindcss], every confirmation is declined, the synchronisation step
    creates the framework directory with a template, no write fails. *)
Definition demoEnv : Env := {|
  env_processCwd := $"/p";
  env_select := fun _ _ => Some $"tailwindcss";
  env_confirm := fun _ => No;
  env_loadConfig := fun _ => [($"router", JObj [])];
  env_sync := fun _ _ tmpPath _ f =>
    (None,
     {| files := <[tmpPath ++ $"/client.tsx"
                     := $"import x from './router';"]> (files f);
        dirs := {[ tmpPath ]} ∪ dirs f |});
  env_writeFault := fun _ => None;
  env_randomColor := $"#639";
  CONFIG_FILE := $".tnfrc";
  FRAMEWORK_NAME := $"tnf";
|}.

(** The synchronisation step that creates nothing. *)
Definition idleEnv : Env := {|
  env_processCwd := $"/p";
  env_select := fun _ _ => None;
  env_confirm := fun _ => Yes;
  env_loadConfig := fun _ => [];
  env_sync := fun _ _ _ _ f => (None, f);
  env_writeFault := fun _ => None;
  env_randomColor := $"#639";
  CONFIG_FILE := $".tnfrc";
  FRAMEWORK_NAME := $"tnf";
|}.

(** A project without files. *)
Definition emptyWorld : World :=
  {| fs := {| files := ∅; dirs := ∅ |}; config := []; trace := [] |}.

(** A project in which the Tailwind configuration file already exists. *)
Definition tailwindWorld : World :=
  {| fs := {| files := {[ $"/p/tailwind.config.js" := $"mine" ]};
              dirs := ∅ |};
     config := []; trace := [] |}.

(** A request without type, for the page [about]. *)
Definition demoOpts : GenerateOptions :=
  {| cwd := $"/p"; type := None; name := Some $"about" |}.

(** ** Vocabulary of the further properties *)

Module RewriterSpec.
Import FromRegex.

(** Whether a chunk is a clause with a specifier that starts with a dot. *)
Definition isRelative (ch : chunk) : bool :=
  match ch with
  | Lit _ => false
  | Match _ p _ => Str.startsWith $"." p
  end.

(** Whether no clause of a content has a specifier that starts with a
    dot. *)
Definition noRelative (content : str) : bool :=
  forallb (fun ch => negb (isRelative ch)) (chunks content).

End RewriterSpec.

(** The texts written to the console in a trace, in order. *)
Fixpoint logs (tr : list event) : list str :=
  match tr with
  | [] => []
  | EvLog m :: rest => m :: logs rest
  | _ :: rest => logs rest
  end.


(** The names of the own properties of the handler table. *)
Definition handlerNames : list str := [$"page"; $"tailwindcss"; $"entry"].

(** What a command may do: the calls it may make, the files it may write,
    the directories it may create and the settings it may assign. *)
Record footprint := {
  fp_events : event -> Prop;
  fp_files : str -> Prop;
  fp_dirs : str -> Prop;
  fp_settings : str -> Prop;
}.

(** The world [w'] differs from [w] by what the footprint allows: the trace
    has grown by allowed calls, and every other file, directory and setting
    is as it was. *)
Definition within (F : footprint) (w w' : World) : Prop :=
  (exists rest, trace w' = trace w ++ rest /\ Forall (fp_events F) rest)
  /\ (forall p, ~ fp_files F p -> files (fs w') !! p = files (fs w) !! p)
  /\ (forall d, ~ fp_dirs F d -> d ∈ dirs (fs w') <-> d ∈ dirs (fs w))
  /\ (forall k, ~ fp_settings F k ->
        Json.getProp k (config w') = Json.getProp k (config w)).

(** A computation that stays within a footprint, wherever it starts and
    whether it returns or throws. *)
Definition confined (F : footprint) {A} (m : M A) : Prop :=
  forall w, within F w (snd (m w)).



Definition entryFootprint (env : Env) (opts : GenerateOptions)
  : footprint := {|
  fp_events := fun e =>
    match e with
    | EvRead p => p = clientSrcPath env (cwd opts)
    | EvConfirm q => q = entryQuestion
    | EvWrite p _ =>
        p = clientDestPath (cwd opts) \/ p = configPath env (cwd opts)
    | EvLog _ => True
    | _ => False
    end;
  fp_files := fun p =>
    p = clientDestPath (cwd opts) \/ p = configPath env (cwd opts);
  fp_dirs := fun _ => False;
  fp_settings := fun k => k = $"entry";
|}.

(** The part of [generateEntry] that follows the synchronisation step. *)
Definition entryAfterSync (env : Env) (opts : GenerateOptions) : M unit :=
  let dir := cwd opts in
  templatePresent <- existsSync (clientSrcPath env dir) ;;
  (if templatePresent then ret tt else throw templateMissing) ;;
  content <- readFile (clientSrcPath env dir) ;;
  let processedContent :=
    processImportPaths (env_processCwd env) content
      (clientSrcPath env dir) (clientDestPath dir) in
  writeResult <- writeFileWithConfirmation env (clientDestPath dir)
                   processedContent entryQuestion ;;
  if success writeResult then
    c <- getConfig ;;
    setConfig (withClient c) ;;
    c' <- getConfig ;;
    configResult <- updateConfigFile env dir c' ;;
    log (message writeResult) ;;
    if success configResult then log (message configResult) else ret tt
  else ret tt.

(** Whether an answer to a confirmation declines. *)
Definition declined (a : answer) : bool :=
  match a with
  | No => true
  | Yes | Cancelled => false
  end.

(** Whether the write of a path does not fail. *)
Definition noFault (env : Env) (p : str) : bool :=
  match env_writeFault env p with
  | None => true
  | Some _ => false
  end.

(** Whether [writeFileWithConfirmation] writes the file: nothing is at the
    path or the overwrite is not declined, and the write does not fail. *)
Definition written (env : Env) (f : FileSystem) (p question : str) : bool :=
  (negb (existsIn f p) || negb (declined (env_confirm env question)))
  && noFault env p.

(** The calls that are no selection prompt, with no limit on the files, the
    directories and the settings. *)
Definition promptFree : footprint := {|
  fp_events := fun e =>
    match e with
    | EvSelect _ _ => False
    | _ => True
    end;
  fp_files := fun _ => True;
  fp_dirs := fun _ => True;
  fp_settings := fun _ => True;
|}.

(** An environment whose synchronisation step throws. *)
Definition brokenSyncEnv : Env := {|
  env_processCwd := $"/p";
  env_select := fun _ _ => None;
  env_confirm := fun _ => Yes;
  env_loadConfig := fun _ => [];
  env_sync := fun _ _ _ _ f => (Some (Error $"sync failed"), f);
  env_writeFault := fun _ => None;
  env_randomColor := $"#639";
  CONFIG_FILE := $".tnfrc";
  FRAMEWORK_NAME := $"tnf";
|}.

(** A project whose framework directory holds a template. *)
Definition syncedWorld : World :=
  {| fs := {| files := {[ $"/p/src/.tnf/client.tsx"
                            := $"import x from './router';" ]};
              dirs := {[ $"/p/src/.tnf" ]} |};
     config := [($"router", JObj [])]; trace := [] |}.

(** Configurations on which removing the quotes of the keys is safe. *)
Module ConfigSpec.

Abbreviation dq := KeyRegex.dquote.

(** A character [JSON.stringify] prints as it is. *)
Definition plainChar (c : ascii) : bool :=
  negb (bool_decide (c = Json.dquote))
  && negb (bool_decide (c = Json.backslash))
  && negb (bool_decide (nat_of_ascii c < 32)).

(** A key that prints as itself between its quotes: not empty, of plain
    characters, and not starting with a colon. *)
Definition bareKey (k : str) : bool :=
  match k with
  | [] => false
  | c :: _ => negb (bool_decide (c = ":")) && forallb plainChar k
  end.

(** A string value without a double quote that does not start with a
    colon. *)
Definition quietText (s : str) : bool :=
  forallb (fun c => negb (bool_decide (c = Json.dquote))) s
  && negb (Str.startsWith $":" s).

(** A value all of whose keys are bare and all of whose strings are
    quiet. *)
Fixpoint simple (v : json) : bool :=
  match v with
  | JStr s => quietText s
  | JArr items => forallb simple items
  | JObj fields =>
      forallb (fun kv => bareKey (fst kv) && simple (snd kv)) fields
  | _ => true
  end.

(** A text behind which a closing quote starts no match: it does not start
    with a colon, and its first double quote, if any, is not followed by a
    colon. *)
Definition okTail (t : str) : Prop :=
  head t <> Some ":"
  /\ match KeyRegex.spanKey t with
     | (_, _ :: c :: _) => c <> ":"
     | _ => True
     end.

(** A configuration of bare keys and quiet strings. *)
Definition plainConfig : Config :=
  [($"router", JObj [($"defaultPreload", JStr $"intent");
                     ($"routes", JArr [JStr $"src/pages"; JNum 2])]);
   ($"tailwindcss", JBool true);
   ($"entry", JObj [($"client", JStr $"src/client.tsx")])].

End ConfigSpec.

(** * Facts about strings and paths *)
Module StrFacts.

Lemma startsWith_app p t : Str.startsWith p (p ++ t) = true.
Proof.
  induction p as [|a p IH]; simpl; [done|].
  rewrite bool_decide_eq_true_2 by done. done.
Qed.

Lemma startsWith_inv p s :
  Str.startsWith p s = true -> s = p ++ drop (length p) s.
Proof.
  revert s. induction p as [|a p IH]; intros [|b s]; simpl; try done.
  intros [Hab Hs]%andb_prop. apply bool_decide_eq_true_1 in Hab.
  subst b. f_equal. by apply IH.
Qed.

Lemma startsWith_cons_ne a p b s :
  a <> b -> Str.startsWith (a :: p) (b :: s) = false.
Proof. intros Hne. simpl. by rewrite bool_decide_eq_false_2. Qed.

Lemma split_not_nil c s : Str.split c s <> [].
Proof.
  destruct s as [|a s]; simpl; [done|].
  case_bool_decide; [done|]. by destruct (Str.split c s).
Qed.

Lemma split_app_sep c a b :
  Str.split c (a ++ c :: b) = Str.split c a ++ Str.split c b.
Proof.
  induction a as [|x a IH]; simpl.
  - by rewrite bool_decide_eq_true_2.
  - case_bool_decide; [by rewrite IH|].
    rewrite IH. pose proof (split_not_nil c a).
    by destruct (Str.split c a).
Qed.

Lemma split_no_sep c s : c ∉ s -> Str.split c s = [s].
Proof.
  induction s as [|x s IH]; simpl; [done|].
  intros Hn. apply not_elem_of_cons in Hn as [Hx Hs].
  rewrite bool_decide_eq_false_2 by done. by rewrite IH.
Qed.

(** Every character of a piece of [s] is a character of [s], and none is
    the separator. *)
Lemma split_pieces c s (P : ascii -> Prop) :
  Forall P s ->
  Forall (fun seg => Forall P seg /\ c ∉ seg) (Str.split c s).
Proof.
  induction s as [|x s IH]; simpl; intros HP.
  - repeat constructor. set_solver.
  - apply Forall_cons in HP as [Hx HP]. specialize (IH HP).
    case_bool_decide.
    + constructor; [split; [constructor|set_solver]|done].
    + pose proof (split_not_nil c s).
      destruct (Str.split c s) as [|seg segs]; [done|].
      apply Forall_cons in IH as [[Hseg Hc] IH].
      constructor; [|done]. split; [by constructor|].
      apply not_elem_of_cons. split; [congruence|done].
Qed.

Lemma split_join c segs :
  segs <> [] -> Forall (fun seg => c ∉ seg) segs ->
  Str.split c (Str.join [c] segs) = segs.
Proof.
  induction segs as [|seg segs IH]; [done|]. intros _ Hall.
  apply Forall_cons in Hall as [Hseg Hall].
  destruct segs as [|seg' segs].
  - simpl. by apply split_no_sep.
  - change (Str.join [c] (seg :: seg' :: segs))
      with (seg ++ c :: Str.join [c] (seg' :: segs)).
    rewrite split_app_sep, IH by done. by rewrite split_no_sep.
Qed.

Lemma join_chars (P : ascii -> Prop) sep parts :
  Forall P sep -> Forall (Forall P) parts -> Forall P (Str.join sep parts).
Proof.
  intros Hsep. induction parts as [|p parts IH]; [constructor|].
  intros [Hp Hparts]%Forall_cons. destruct parts as [|p' parts]; [done|].
  change (Str.join sep (p :: p' :: parts))
    with (p ++ sep ++ Str.join sep (p' :: parts)).
  rewrite !Forall_app. auto.
Qed.

(** The last piece of a string extended by text without the separator. *)
Lemma split_app_last c s t :
  c ∉ t ->
  exists init l, Str.split c s = init ++ [l]
                 /\ Str.split c (s ++ t) = init ++ [l ++ t].
Proof.
  intros Ht. induction s as [|x s (init & l & Hs & Hst)]; simpl.
  - exists [], []. by rewrite split_no_sep.
  - case_bool_decide.
    + exists ([] :: init), l. by rewrite Hs, Hst.
    + rewrite Hs, Hst. destruct init as [|i0 init]; simpl.
      * by exists [], (x :: l).
      * by exists ((x :: i0) :: init), l.
Qed.

End StrFacts.

Module PathFacts.
Import StrFacts PathSpec.

Lemma norm_step_name b stack seg :
  name_seg seg -> Path.norm_step b stack seg = seg :: stack.
Proof.
  intros (H1 & H2 & H3 & _). unfold Path.norm_step, Str.eqb.
  by rewrite !bool_decide_eq_false_2.
Qed.

Lemma norm_step_skip b stack seg :
  seg = [] \/ seg = Path.dot -> Path.norm_step b stack seg = stack.
Proof.
  intros [-> | ->]; unfold Path.norm_step, Str.eqb; by simpl.
Qed.

Lemma norm_from_app b stack s1 s2 :
  Path.norm_from b stack (s1 ++ s2)
  = Path.norm_from b (Path.norm_from b stack s1) s2.
Proof. apply fold_left_app. Qed.

Lemma norm_from_names b stack segs :
  Forall name_seg segs -> Path.norm_from b stack segs = rev segs ++ stack.
Proof.
  revert stack. induction segs as [|seg segs IH]; intros stack Hall.
  - done.
  - apply Forall_cons in Hall as [Hseg Hall]. simpl.
    unfold Path.norm_from in *. simpl.
    rewrite norm_step_name, IH by done. by rewrite <- app_assoc.
Qed.

(** One [..] for every name on top of the stack removes them all. *)
Lemma norm_from_ups top stack :
  Forall name_seg top ->
  Path.norm_from false (top ++ stack)
    (replicate (length top) Path.dotdot) = stack.
Proof.
  induction top as [|seg top IH]; [done|].
  intros [Hseg Htop]%Forall_cons. simpl. unfold Path.norm_from. simpl.
  destruct Hseg as (_ & _ & Hdd & _).
  unfold Path.norm_step at 2. unfold Str.eqb.
  rewrite (bool_decide_eq_false_2 (seg = Path.dotdot)) by done.
  simpl. by apply IH.
Qed.

Lemma map_const_replicate {A B} (k : B) (l : list A) :
  map (fun _ => k) l = replicate (length l) k.
Proof. induction l; simpl; by f_equal. Qed.

(** Below the root the stack holds names only. *)
Lemma norm_from_keeps_names stack segs :
  Forall name_seg stack -> Forall (fun seg => "/" ∉ seg) segs ->
  Forall name_seg (Path.norm_from false stack segs).
Proof.
  revert stack. induction segs as [|seg segs IH]; intros stack Hst Hall.
  - done.
  - apply Forall_cons in Hall as [Hseg Hall].
    unfold Path.norm_from. simpl. apply IH; [|done].
    unfold Path.norm_step, Str.eqb.
    repeat case_bool_decide; simpl; try done.
    + destruct stack as [|top below]; [done|].
      case_bool_decide; [done|]. by apply Forall_cons in Hst as [_ ?].
    + by constructor.
Qed.

Lemma norm_from_chars (P : ascii -> Prop) stack segs :
  Forall (Forall P) stack -> Forall (Forall P) segs ->
  Forall (Forall P) (Path.norm_from false stack segs).
Proof.
  revert stack. induction segs as [|seg segs IH]; intros stack Hst Hall.
  - done.
  - apply Forall_cons in Hall as [Hseg Hall].
    unfold Path.norm_from. simpl. apply IH; [|done].
    unfold Path.norm_step.
    destruct (_ || _); [done|]. destruct (Str.eqb seg Path.dotdot).
    + destruct stack as [|top below]; [done|].
      apply Forall_cons in Hst as [? ?]. destruct (Str.eqb _ _); by auto.
    + by constructor.
Qed.

(** *** The loop of [resolve] *)

Lemma resolve_loop_acc rargs acc :
  Path.resolve_loop rargs acc
  = (fst (Path.resolve_loop rargs []) ++ acc,
     snd (Path.resolve_loop rargs [])).
Proof.
  revert acc. induction rargs as [|p rargs IH]; intros acc; [done|].
  simpl. destruct p as [|c p]; [apply IH|].
  destruct (Path.isAbsolute (c :: p)).
  - simpl. by rewrite <- !app_assoc.
  - rewrite IH. rewrite (IH ((c :: p) ++ _)). simpl. f_equal.
    rewrite <- !app_assoc. simpl. by rewrite <- !app_assoc.
Qed.

Lemma resolve_loop_abs rargs cwd acc :
  Path.isAbsolute cwd = true ->
  snd (Path.resolve_loop (rargs ++ [cwd]) acc) = true.
Proof.
  intros Hcwd. revert acc.
  induction rargs as [|p rargs IH]; intros acc; simpl.
  - destruct cwd as [|c cwd]; [done|]. by rewrite Hcwd.
  - destruct p as [|c p]; [apply IH|].
    destruct (Path.isAbsolute (c :: p)); [done|apply IH].
Qed.

(** What the loop has collected ends with a slash. *)
Lemma resolve_loop_slash rargs :
  snd (Path.resolve_loop rargs []) = true ->
  exists y, fst (Path.resolve_loop rargs []) = y ++ Path.sep.
Proof.
  induction rargs as [|p rargs IH]; simpl; [done|].
  destruct p as [|c p]; [done|].
  destruct (Path.isAbsolute (c :: p)).
  - intros _. by exists (c :: p).
  - rewrite resolve_loop_acc. simpl. intros _.
    exists (fst (Path.resolve_loop rargs []) ++ c :: p).
    by rewrite <- !app_assoc.
Qed.

Lemma split_slash_end y :
  Str.split "/" (y ++ Path.sep) = Str.split "/" y ++ [[]].
Proof. unfold Path.sep. simpl. by rewrite split_app_sep. Qed.

Lemma resolveSegs_stack cwd args :
  Path.isAbsolute cwd = true ->
  Path.resolveSegs cwd args = (rev (resolveStack cwd args), true).
Proof.
  intros Hcwd. unfold Path.resolveSegs, resolveStack.
  pose proof (resolve_loop_abs (rev args) cwd [] Hcwd) as Habs.
  destruct (Path.resolve_loop (rev args ++ [cwd]) []) as [p abs].
  simpl in *. subst abs. done.
Qed.

Lemma resolveStack_names cwd args :
  Forall name_seg (resolveStack cwd args).
Proof.
  unfold resolveStack. apply norm_from_keeps_names; [constructor|].
  eapply Forall_impl;
    [apply (split_pieces "/" _ (fun _ => True)), Forall_true; done|].
  by intros seg [_ ?].
Qed.

Lemma resolve_loop_relative p rest acc :
  p <> [] -> Path.isAbsolute p = false ->
  Path.resolve_loop (p :: rest) acc
  = Path.resolve_loop rest (p ++ Path.sep ++ acc).
Proof. intros Hp Hrel. destruct p; [done|]. simpl. by rewrite Hrel. Qed.

Lemma resolve_loop_absolute p rest acc :
  Path.isAbsolute p = true ->
  Path.resolve_loop (p :: rest) acc = (p ++ Path.sep ++ acc, true).
Proof. intros Habs. destruct p; [done|]. simpl. by rewrite Habs. Qed.

(** Resolving one more relative argument continues the normalisation. *)
Lemma resolveStack_snoc cwd args p :
  Path.isAbsolute cwd = true -> p <> [] -> Path.isAbsolute p = false ->
  resolveStack cwd (args ++ [p])
  = Path.norm_from false (resolveStack cwd args) (Str.split "/" p).
Proof.
  intros Hcwd Hp Hrel. unfold resolveStack.
  rewrite rev_app_distr.
  change (rev [p] ++ rev args) with (p :: rev args).
  rewrite <- app_comm_cons, resolve_loop_relative by done.
  rewrite resolve_loop_acc.
  destruct (resolve_loop_slash (rev args ++ [cwd])) as [y Hy].
  { by apply resolve_loop_abs. }
  cbn [fst]. rewrite Hy, split_slash_end, app_nil_r.
  unfold Path.sep at 1. rewrite <- app_assoc.
  change ($"/" ++ p ++ Path.sep) with ("/" :: (p ++ Path.sep)).
  rewrite split_app_sep, split_slash_end.
  rewrite !norm_from_app. done.
Qed.

Lemma resolveStack_absolute cwd t :
  Path.isAbsolute t = true ->
  resolveStack cwd [t] = Path.norm_from false [] (Str.split "/" t).
Proof.
  intros Ht. unfold resolveStack.
  change (rev [t] ++ [cwd]) with (t :: [cwd]).
  rewrite resolve_loop_absolute by done.
  cbn [fst]. rewrite app_nil_r, split_slash_end, norm_from_app. done.
Qed.

Lemma resolve_text cwd args :
  Path.isAbsolute cwd = true ->
  Path.resolve cwd args
  = Path.sep ++ Str.join Path.sep (rev (resolveStack cwd args)).
Proof.
  intros Hcwd. unfold Path.resolve. by rewrite resolveSegs_stack.
Qed.

(** Resolving a resolved path gives it back. *)
Lemma resolveStack_resolve cwd args :
  Path.isAbsolute cwd = true ->
  resolveStack cwd [Path.resolve cwd args] = resolveStack cwd args.
Proof.
  intros Hcwd. rewrite resolve_text by done.
  rewrite resolveStack_absolute by done.
  pose proof (resolveStack_names cwd args) as Hn.
  set (st := resolveStack cwd args) in *.
  change (Path.sep ++ ?x) with ("/" :: x).
  change ("/" :: ?x) with ([] ++ "/" :: x).
  rewrite split_app_sep. simpl.
  destruct (decide (st = [])) as [->|Hne]; [done|].
  unfold Path.sep. simpl. rewrite split_join.
  - change (Path.norm_from false [] ([] :: rev st))
      with (Path.norm_from false [] (rev st)).
    rewrite norm_from_names; [by rewrite rev_involutive, app_nil_r|].
    by apply Forall_rev.
  - intros Hrev. apply Hne. by rewrite <- (rev_involutive st), Hrev.
  - apply Forall_rev. eapply Forall_impl; [exact Hn|].
    by intros seg (_ & _ & _ & ?).
Qed.

(** *** [relative] *)

Lemma strip_common_spec f t :
  exists c, f = c ++ fst (Path.strip_common f t)
            /\ t = c ++ snd (Path.strip_common f t).
Proof.
  revert t. induction f as [|a f IH]; intros t; [by exists []|].
  destruct t as [|b t]; [by exists []|]. simpl. unfold Str.eqb.
  case_bool_decide; [|by exists []].
  subst b. destruct (IH t) as (c & Hf & Ht).
  exists (a :: c). simpl. by rewrite <- Hf, <- Ht.
Qed.

Lemma relative_text cwd from to :
  Path.isAbsolute cwd = true ->
  Path.relative cwd from to = Str.join Path.sep (relativeSegs cwd from to).
Proof.
  intros Hcwd. unfold Path.relative, relativeSegs.
  rewrite !resolveSegs_stack by done. cbn [fst].
  destruct (Path.strip_common _ _) as [f' t'].
  by rewrite map_const_replicate.
Qed.

Lemma relativeSegs_no_slash cwd from to :
  Forall (fun seg => "/" ∉ seg) (relativeSegs cwd from to).
Proof.
  unfold relativeSegs.
  destruct (strip_common_spec (rev (resolveStack cwd [from]))
              (rev (resolveStack cwd [to]))) as (c & _ & Ht).
  apply Forall_app. split.
  - apply Forall_replicate. compute_done.
  - pose proof (resolveStack_names cwd [to]) as Hn.
    apply Forall_rev in Hn. rewrite Ht in Hn.
    apply Forall_app in Hn as [_ Hn].
    eapply Forall_impl; [exact Hn|]. by intros seg (_ & _ & _ & ?).
Qed.

(** Walking the relative path from [from] arrives at [to]. *)
Lemma relativeSegs_walk cwd from to :
  Path.norm_from false (resolveStack cwd [from]) (relativeSegs cwd from to)
  = resolveStack cwd [to].
Proof.
  unfold relativeSegs.
  pose proof (resolveStack_names cwd [from]) as Hf.
  pose proof (resolveStack_names cwd [to]) as Ht.
  destruct (strip_common_spec (rev (resolveStack cwd [from]))
              (rev (resolveStack cwd [to]))) as (c & Ef & Et).
  set (f' := fst (Path.strip_common _ _)) in *.
  set (t' := snd (Path.strip_common _ _)) in *.
  apply (f_equal (@rev str)) in Ef, Et.
  rewrite rev_involutive, rev_app_distr in Ef, Et.
  rewrite Ef in Hf |- *. rewrite Et in Ht |- *.
  apply Forall_app in Hf as [Hf' _]. apply Forall_app in Ht as [Ht' _].
  rewrite norm_from_app.
  rewrite <- (length_rev f'), norm_from_ups by done.
  rewrite norm_from_names; [done|].
  rewrite <- (rev_involutive t'). by apply Forall_rev.
Qed.

Lemma dotted_relative relativePath :
  dotted relativePath <> [] /\ Path.isAbsolute (dotted relativePath) = false.
Proof.
  unfold dotted. destruct (Str.startsWith _ relativePath) eqn:Hs; [|done].
  apply startsWith_inv in Hs. rewrite Hs. done.
Qed.

Lemma norm_from_dotted stack segs :
  Forall (fun seg => "/" ∉ seg) segs ->
  Path.norm_from false stack
    (Str.split "/" (dotted (Str.join Path.sep segs)))
  = Path.norm_from false stack segs.
Proof.
  intros Hsegs. unfold dotted.
  destruct (Str.startsWith _ _) eqn:Hs.
  - destruct segs as [|seg segs]; [done|].
    unfold Path.sep. simpl list_ascii_of_string. by rewrite split_join.
  - change ($"./" ++ ?x) with ($"." ++ "/" :: x).
    rewrite split_app_sep, norm_from_app.
    change (Path.norm_from false stack (Str.split "/" $"."))
      with stack.
    destruct segs as [|seg segs]; [done|].
    unfold Path.sep. simpl list_ascii_of_string. by rewrite split_join.
Qed.

(** The round trip behind [processImportPaths]. *)
Lemma resolve_dotted_relative cwd dirD target :
  Path.isAbsolute cwd = true ->
  Path.resolve cwd [dirD; dotted (Path.relative cwd dirD target)]
  = Path.resolve cwd [target].
Proof.
  intros Hcwd. rewrite !resolve_text by done. do 3 f_equal.
  destruct (dotted_relative (Path.relative cwd dirD target)) as [Hne Hrel].
  change [dirD; ?n] with ([dirD] ++ [n]).
  rewrite resolveStack_snoc by done.
  rewrite relative_text by done.
  rewrite norm_from_dotted by apply relativeSegs_no_slash.
  apply relativeSegs_walk.
Qed.

(** *** The characters of the computed paths *)

Section Chars.
Context (P : ascii -> Prop) (Pslash : P "/") (Pdot : P ".").

Lemma resolve_loop_chars rargs acc :
  Forall (Forall P) rargs -> Forall P acc ->
  Forall P (fst (Path.resolve_loop rargs acc)).
Proof.
  revert acc. induction rargs as [|p rargs IH]; intros acc Hargs Hacc.
  - done.
  - apply Forall_cons in Hargs as [Hp Hargs]. simpl.
    destruct p as [|c p]; [by apply IH|].
    assert (Forall P ((c :: p) ++ Path.sep ++ acc)).
    { rewrite !Forall_app. repeat split; try done. by repeat constructor. }
    destruct (Path.isAbsolute (c :: p)); [done|by apply IH].
Qed.

Lemma resolveStack_chars cwd args :
  Forall P cwd -> Forall (Forall P) args ->
  Forall (Forall P) (resolveStack cwd args).
Proof.
  intros Hcwd Hargs. unfold resolveStack.
  apply norm_from_chars; [constructor|].
  eapply Forall_impl; [apply (split_pieces "/" _ P)|by intros ? [? _]].
  apply resolve_loop_chars; [|constructor].
  apply Forall_app. split; [by apply Forall_rev|by constructor].
Qed.

Lemma resolve_chars cwd args :
  Path.isAbsolute cwd = true ->
  Forall P cwd -> Forall (Forall P) args ->
  Forall P (Path.resolve cwd args).
Proof.
  intros Habs Hcwd Hargs. rewrite resolve_text by done.
  apply Forall_app. split; [by repeat constructor|].
  apply join_chars; [by repeat constructor|].
  by apply Forall_rev, resolveStack_chars.
Qed.

Lemma relative_chars cwd from to :
  Path.isAbsolute cwd = true ->
  Forall P cwd -> Forall P to ->
  Forall P (Path.relative cwd from to).
Proof.
  intros Habs Hcwd Hto. rewrite relative_text by done.
  apply join_chars; [by repeat constructor|]. unfold relativeSegs.
  destruct (strip_common_spec (rev (resolveStack cwd [from]))
              (rev (resolveStack cwd [to]))) as (c & _ & Ht).
  apply Forall_app. split.
  - apply Forall_replicate. by repeat constructor.
  - assert (Hall : Forall (Forall P) (rev (resolveStack cwd [to]))).
    { apply Forall_rev, resolveStack_chars; [done|by repeat constructor]. }
    rewrite Ht in Hall. by apply Forall_app in Hall as [_ ?].
Qed.

Lemma dropWhile_chars f s : Forall P s -> Forall P (Str.dropWhile f s).
Proof.
  induction s as [|c s IH]; [done|]. intros Hs. simpl.
  destruct (f c); [|done]. apply IH. by apply Forall_cons in Hs as [_ ?].
Qed.

Lemma dirname_chars path : Forall P path -> Forall P (Path.dirname path).
Proof.
  intros Hp. unfold Path.dirname. destruct path as [|c0 rest].
  { by repeat constructor. }
  apply Forall_cons in Hp as [Hc0 Hrest].
  assert (Hno : Forall P (if bool_decide (c0 = "/")
                          then Path.sep else Path.dot)).
  { destruct (bool_decide _); by repeat constructor. }
  pose proof (dropWhile_chars (fun c => bool_decide (c = "/"))
                (rev rest) (Forall_rev Hrest)) as Hd.
  destruct (Str.dropWhile _ (rev rest)) as [|x below]; [done|].
  pose proof (dropWhile_chars (fun c => bool_decide (c <> "/"))
                (x :: below) Hd) as Hd'.
  destruct (Str.dropWhile _ (x :: below)) as [|y before]; [done|].
  apply Forall_cons in Hd' as [_ Hb].
  destruct before as [|z before].
  - destruct (bool_decide _); by repeat constructor.
  - constructor; [done|]. by apply Forall_rev.
Qed.

Lemma dotted_chars r : Forall P r -> Forall P (dotted r).
Proof.
  intros Hr. unfold dotted. destruct (Str.startsWith _ r); [done|].
  by repeat constructor.
Qed.

End Chars.

(** *** The last segment of a joined path *)

Lemma norm_from_no_slash b stack segs :
  Forall (fun seg => "/" ∉ seg) stack ->
  Forall (fun seg => "/" ∉ seg) segs ->
  Forall (fun seg => "/" ∉ seg) (Path.norm_from b stack segs).
Proof.
  revert stack. induction segs as [|seg segs IH]; intros stack Hst Hall.
  - done.
  - apply Forall_cons in Hall as [Hseg Hall].
    unfold Path.norm_from. simpl. apply IH; [|done].
    unfold Path.norm_step.
    destruct (_ || _); [done|]. destruct (Str.eqb seg Path.dotdot).
    + destruct stack as [|top below].
      * destruct b; [|done]. constructor; [compute_done|done].
      * pose proof Hst as [? ?]%Forall_cons.
        destruct (Str.eqb _ _); [|done]. destruct b; [|done].
        constructor; [compute_done|done].
    + by constructor.
Qed.

Lemma rev_suffix_no_slash t z :
  t <> [] -> "/" ∉ t -> Str.startsWith Path.sep (rev t ++ z) = false.
Proof.
  intros Hne Ht. destruct (rev t) as [|c r] eqn:Hr.
  - destruct Hne. by rewrite <- (rev_involutive t), Hr.
  - simpl. rewrite bool_decide_eq_false_2; [done|]. intros <-.
    apply Ht. rewrite <- (rev_involutive t), Hr. simpl.
    apply elem_of_app. right. by left.
Qed.

Lemma lastSeg_join_text segs l :
  Forall (fun seg => "/" ∉ seg) segs -> "/" ∉ l ->
  lastSeg (Str.join Path.sep (segs ++ [l])) = Some l
  /\ lastSeg (Path.sep ++ Str.join Path.sep (segs ++ [l])) = Some l.
Proof.
  intros Hsegs Hl. unfold lastSeg.
  assert (Hsp : Str.split "/" (Str.join Path.sep (segs ++ [l]))
                = segs ++ [l]).
  { apply split_join; [by destruct segs|].
    apply Forall_app. split; [done|by constructor]. }
  split.
  - by rewrite Hsp, last_snoc.
  - change (Path.sep ++ ?x) with ([] ++ "/" :: x).
    rewrite split_app_sep, Hsp. simpl Str.split.
    change ([[]] ++ segs ++ [l]) with (([] :: segs) ++ [l]).
    by rewrite last_snoc.
Qed.

Lemma normalize_not_nil path :
  path <> [] ->
  Path.normalize path
  = let isAbs := Path.isAbsolute path in
    let trailing := Str.startsWith Path.sep (rev path) in
    let p := Path.normalizeString path (negb isAbs) in
    match p with
    | [] => if isAbs then Path.sep
            else if trailing then $"./" else Path.dot
    | _ => let p := if trailing then p ++ Path.sep else p in
           if isAbs then Path.sep ++ p else p
    end.
Proof. intros Hne. destruct path; [done|reflexivity]. Qed.

(** A name that ends a path ends its normal form. *)
Lemma lastSeg_normalize y t :
  2 < length t -> "/" ∉ t ->
  exists l0, lastSeg (Path.normalize (y ++ t)) = Some (l0 ++ t).
Proof.
  intros Hlen Ht.
  assert (Hne : t <> []) by (by intros ->; simpl in Hlen; lia).
  destruct (split_app_last "/" y t Ht) as (init & l0 & Hy & Hyt).
  exists l0.
  assert (Hl0 : "/" ∉ l0).
  { pose proof (split_pieces "/" y (fun _ => True)) as Hp.
    rewrite Hy in Hp. specialize (Hp ltac:(by apply Forall_true)).
    apply Forall_app in Hp as [_ Hp]. by apply Forall_cons in Hp as [[_ ?] _]. }
  assert (Hinit : Forall (fun seg => "/" ∉ seg) init).
  { pose proof (split_pieces "/" y (fun _ => True)) as Hp.
    rewrite Hy in Hp. specialize (Hp ltac:(by apply Forall_true)).
    apply Forall_app in Hp as [Hp _].
    eapply Forall_impl; [exact Hp|]. by intros ? [_ ?]. }
  assert (Hname : name_seg (l0 ++ t)).
  { repeat split.
    - by destruct l0.
    - intros E. apply (f_equal length) in E.
      rewrite length_app in E. simpl in E. lia.
    - intros E. apply (f_equal length) in E.
      rewrite length_app in E. simpl in E. lia.
    - rewrite elem_of_app. tauto. }
  rewrite normalize_not_nil by (by destruct y, t). cbv zeta.
  rewrite rev_app_distr, rev_suffix_no_slash by done.
  unfold Path.normalizeString, Path.normalizeSegs.
  set (b := negb (Path.isAbsolute (y ++ t))).
  rewrite Hyt, norm_from_app.
  set (st := Path.norm_from b [] init).
  change (Path.norm_from b st [l0 ++ t])
    with (Path.norm_step b st (l0 ++ t)).
  rewrite norm_step_name by done.
  change (rev ((l0 ++ t) :: st)) with (rev st ++ [l0 ++ t]).
  assert (Hst : Forall (fun seg => "/" ∉ seg) (rev st)).
  { apply Forall_rev, norm_from_no_slash; [constructor|done]. }
  destruct (lastSeg_join_text (rev st) (l0 ++ t)) as [H1 H2]; try done.
  { by destruct Hname as (_ & _ & _ & ?). }
  destruct (Str.join Path.sep (rev st ++ [l0 ++ t])) as [|c1 j] eqn:Ej.
  { by destruct (rev st), l0, t. }
  by destruct (Path.isAbsolute (y ++ t)).
Qed.

Lemma lastSeg_join dir x t :
  2 < length t -> "/" ∉ t ->
  exists l0, lastSeg (Path.join [dir; x ++ t]) = Some (l0 ++ t).
Proof.
  intros Hlen Ht. unfold Path.join.
  assert (Hxt : x ++ t <> []).
  { destruct t; [simpl in Hlen; lia|by destruct x]. }
  destruct dir as [|d dir].
  - rewrite filter_cons_False by (by intros ?).
    rewrite filter_cons_True by done. rewrite filter_nil.
    by apply lastSeg_normalize.
  - rewrite filter_cons_True by done.
    rewrite filter_cons_True by done. rewrite filter_nil.
    change (Str.join Path.sep [d :: dir; x ++ t])
      with ((d :: dir) ++ Path.sep ++ x ++ t).
    rewrite !app_assoc. by apply lastSeg_normalize.
Qed.

(** Two joined paths whose last segments end differently differ. *)
Lemma join_ne dir x t dir' x' t' :
  2 < length t -> "/" ∉ t -> 2 < length t' -> "/" ∉ t' ->
  (forall l l', l ++ t <> l' ++ t') ->
  Path.join [dir; x ++ t] <> Path.join [dir'; x' ++ t'].
Proof.
  intros Hlen Ht Hlen' Ht' Hdiff E.
  destruct (lastSeg_join dir x t Hlen Ht) as [l H].
  destruct (lastSeg_join dir' x' t' Hlen' Ht') as [l' H'].
  rewrite E, H' in H. injection H as H. by apply (Hdiff l l').
Qed.

Lemma dotted_starts r : Str.startsWith $"." (dotted r) = true.
Proof. unfold dotted. by destruct (Str.startsWith _ r) eqn:Hs. Qed.

End PathFacts.

(** * Facts about the regular expression of [processImportPaths] *)
Module FromRegexFacts.
Import FromRegex StrFacts RegexSpec.

Lemma spanBody_spec s b r :
  spanBody s = (b, r) ->
  s = b ++ r /\ quoteFree b
  /\ (r = [] \/ exists q r', r = q :: r' /\ isQuote q = true).
Proof.
  revert b r. induction s as [|x s IH]; intros b r; simpl.
  - intros [= <- <-]. repeat split; [constructor|by left].
  - destruct (isQuote x) eqn:Hx.
    + intros [= <- <-]. repeat split; [constructor|right; eauto].
    + destruct (spanBody s) as [b' r']. intros [= <- <-].
      destruct (IH _ _ eq_refl) as (-> & Hb & Hr).
      repeat split; [by constructor|done].
Qed.

Lemma spanBody_quote b q r :
  quoteFree b -> isQuote q = true -> spanBody (b ++ q :: r) = (b, q :: r).
Proof.
  intros Hb Hq. induction b as [|x b IH]; simpl; [by rewrite Hq|].
  apply Forall_cons in Hb as [-> Hb]. by rewrite IH.
Qed.

Lemma spanBody_quoteFree s : quoteFree s -> spanBody s = (s, []).
Proof.
  induction s as [|x s IH]; [done|]. intros [Hx Hs]%Forall_cons.
  simpl. by rewrite Hx, IH.
Qed.

(** The shape of a string on which the expression matches at the start. *)
Lemma matchHere_Some s ch rest :
  matchHere s = Some (ch, rest) ->
  exists q p q',
    ch = Match q p q' /\ s = $"from " ++ q :: p ++ q' :: rest
    /\ isQuote q = true /\ isQuote q' = true /\ p <> [] /\ quoteFree p.
Proof.
  unfold matchHere. destruct (Str.startsWith _ s) eqn:Hs; [|done].
  apply startsWith_inv in Hs. simpl length in Hs.
  destruct (drop 5 s) as [|q t]; [done|].
  destruct (isQuote q) eqn:Hq; [|done].
  destruct (spanBody t) as [body r] eqn:Hsp.
  destruct body as [|c0 body]; [done|]. destruct r as [|q' r]; [done|].
  intros [= <- <-]. apply spanBody_spec in Hsp as (-> & Hb & Hr).
  destruct Hr as [|(q2 & r2 & [= <- <-] & Hq')]; [done|].
  exists q, (c0 :: body), q'. by rewrite Hs at 1.
Qed.

Lemma matchHere_intro q p q' rest :
  isQuote q = true -> isQuote q' = true -> p <> [] -> quoteFree p ->
  matchHere ($"from " ++ q :: p ++ q' :: rest)
  = Some (Match q p q', rest).
Proof.
  intros Hq Hq' Hp Hfree. unfold matchHere.
  rewrite startsWith_app.
  change (drop 5 ($"from " ++ ?x)) with x. cbv iota beta. rewrite Hq.
  rewrite spanBody_quote by done. by destruct p.
Qed.

Lemma matchHere_shorter s ch rest :
  matchHere s = Some (ch, rest) -> length rest < length s.
Proof.
  intros (q & p & q' & _ & -> & _)%matchHere_Some.
  rewrite length_app. simpl. rewrite length_app. simpl. lia.
Qed.

Lemma matchHere_not_f c s : c <> "f" -> matchHere (c :: s) = None.
Proof.
  intros Hc. unfold matchHere.
  change (Str.startsWith $"from " (c :: s))
    with (bool_decide ("f" = c) && Str.startsWith $"rom " s).
  rewrite bool_decide_eq_false_2; [done|congruence].
Qed.

(** *** The unfolding of [chunks] *)

Lemma chunks_nil : chunks [] = [].
Proof. reflexivity. Qed.

Lemma chunks_match s ch rest :
  matchHere s = Some (ch, rest) -> chunks s = ch :: chunks rest.
Proof.
  intros H. rewrite chunks_equation_1.
  destruct (inspect (matchHere s)) as [[[ch' rest']|] Heq]; simpl;
    congruence.
Qed.

Lemma chunks_lit c s :
  matchHere (c :: s) = None -> chunks (c :: s) = Lit c :: chunks s.
Proof.
  intros H. rewrite chunks_equation_1.
  destruct (inspect (matchHere (c :: s))) as [[[ch' rest']|] Heq]; simpl;
    [congruence|done].
Qed.

(** Induction along the scan. *)
Lemma scan_ind (P : str -> Prop) :
  P [] ->
  (forall c s, matchHere (c :: s) = None -> P s -> P (c :: s)) ->
  (forall s ch rest, matchHere s = Some (ch, rest) -> P rest -> P s) ->
  forall s, P s.
Proof.
  intros Hnil Hlit Hmatch s.
  remember (length s) as n eqn:Hn. revert s Hn.
  induction (lt_wf n) as [n _ IH]. intros s ->.
  assert (Hall : forall t, length t < length s -> P t).
  { intros t Ht. eapply IH; [exact Ht|reflexivity]. }
  clear IH.
  destruct (matchHere s) as [[ch rest]|] eqn:Hm.
  - eapply Hmatch; [exact Hm|]. apply Hall.
    by eapply matchHere_shorter.
  - destruct s as [|c s]; [done|]. apply Hlit; [done|].
    apply Hall. simpl. lia.
Qed.

(** The chunks spell the subject string. *)
Lemma chunks_text s : flat_map chunkText (chunks s) = s.
Proof.
  induction s as [|c s Hm IH|s ch rest Hm IH] using scan_ind.
  - done.
  - rewrite chunks_lit by done. simpl. by rewrite IH.
  - rewrite (chunks_match _ _ _ Hm). simpl. rewrite IH.
    apply matchHere_Some in Hm as (q & p & q' & -> & -> & _).
    simpl. by rewrite <- !app_assoc.
Qed.

(** The capture group of a match: not empty, without quotes, between two
    quotes. *)
Lemma chunks_Match s q p q' :
  Match q p q' ∈ chunks s ->
  isQuote q = true /\ isQuote q' = true /\ p <> [] /\ quoteFree p.
Proof.
  induction s as [|c s Hm IH|s ch rest Hm IH] using scan_ind.
  - rewrite chunks_nil. by intros ?%elem_of_nil.
  - rewrite chunks_lit by done. intros [?|?]%elem_of_cons; [done|auto].
  - rewrite (chunks_match _ _ _ Hm).
    intros [<-|?]%elem_of_cons; [|auto].
    apply matchHere_Some in Hm as (q0 & p0 & q0' & [= -> -> ->] & _ & H).
    tauto.
Qed.

Lemma quotes_app a b : quotes (a ++ b) = quotes a + quotes b.
Proof. unfold quotes. by rewrite filter_app, length_app. Qed.

Lemma quotes_quote q s : isQuote q = true -> quotes (q :: s) = S (quotes s).
Proof. intros Hq. unfold quotes. by rewrite filter_cons_True. Qed.

Lemma quotes_cons_le c s : quotes s <= quotes (c :: s).
Proof.
  unfold quotes. destruct (isQuote c) eqn:Hc.
  - rewrite filter_cons_True by done. simpl. lia.
  - rewrite filter_cons_False; [done|]. by rewrite Hc.
Qed.

Lemma matchHere_two_quotes s ch rest :
  matchHere s = Some (ch, rest) -> 2 <= quotes s.
Proof.
  intros (q & p & q' & _ & -> & Hq & Hq' & _)%matchHere_Some.
  rewrite quotes_app, quotes_quote, quotes_app, quotes_quote by done. lia.
Qed.

Lemma chunks_one_quote s : quotes s <= 1 -> chunks s = map Lit s.
Proof.
  induction s as [|c s IH]; intros Hs; [done|].
  rewrite chunks_lit.
  - simpl. f_equal. apply IH. pose proof (quotes_cons_le c s). lia.
  - destruct (matchHere (c :: s)) as [[ch rest]|] eqn:Hm; [|done].
    apply matchHere_two_quotes in Hm. lia.
Qed.

Lemma quoteFree_quotes s : quoteFree s -> quotes s = 0.
Proof.
  induction s as [|c s IH]; [done|]. intros [Hc Hs]%Forall_cons.
  unfold quotes in *. rewrite filter_cons_False; [by apply IH|].
  by rewrite Hc.
Qed.

(** *** [replace] *)

Lemma replace_nil f : replace f [] = [].
Proof. reflexivity. Qed.

Lemma replace_lit f c s :
  matchHere (c :: s) = None -> replace f (c :: s) = c :: replace f s.
Proof. intros H. unfold replace. by rewrite chunks_lit. Qed.

Lemma replace_match f s q p q' rest :
  matchHere s = Some (Match q p q', rest) ->
  replace f s = f (chunkText (Match q p q')) p ++ replace f rest.
Proof. intros H. unfold replace. by rewrite (chunks_match _ _ _ H). Qed.

Lemma flat_map_Lit f s :
  flat_map (fun ch => match ch with
                      | Lit c => [c]
                      | Match _ p _ => f (chunkText ch) p
                      end) (map Lit s) = s.
Proof. induction s as [|c s IH]; simpl; by f_equal. Qed.

Lemma replace_one_quote f s : quotes s <= 1 -> replace f s = s.
Proof.
  intros Hs. unfold replace. rewrite chunks_one_quote by done.
  apply flat_map_Lit.
Qed.

End FromRegexFacts.

(** * The import-path rewriter: claims C1, C10 and C6 *)
Module RewriterFacts.
Import FromRegex StrFacts PathSpec RegexSpec PathFacts FromRegexFacts.

Lemma processImportPaths_chunks cwd content sourcePath destPath :
  processImportPaths cwd content sourcePath destPath
  = flat_map (rewriteChunk cwd sourcePath destPath) (chunks content).
Proof. reflexivity. Qed.

Lemma resolve_resolve cwd args :
  Path.isAbsolute cwd = true ->
  Path.resolve cwd [Path.resolve cwd args] = Path.resolve cwd args.
Proof.
  intros Hcwd. rewrite (resolve_text cwd [_]) by done.
  rewrite resolveStack_resolve by done. by rewrite resolve_text.
Qed.

Lemma normalizedPath_dotted cwd sourcePath destPath p :
  normalizedPath cwd sourcePath destPath p
  = dotted (Path.relative cwd (Path.dirname destPath)
              (Path.resolve cwd [Path.dirname sourcePath; p])).
Proof. reflexivity. Qed.

(** The rewritten specifier, resolved from the directory of the
    destination, is the original one resolved from the directory of the
    source. *)
Lemma normalizedPath_resolve cwd sourcePath destPath p :
  Path.isAbsolute cwd = true ->
  Path.resolve cwd
    [Path.dirname destPath; normalizedPath cwd sourcePath destPath p]
  = Path.resolve cwd [Path.dirname sourcePath; p].
Proof.
  intros Hcwd. rewrite normalizedPath_dotted.
  rewrite resolve_dotted_relative by done. by apply resolve_resolve.
Qed.

(** *** Scanning a rewritten content *)

Lemma matchHere_take s : take 5 s <> $"from " -> matchHere s = None.
Proof.
  intros Hne. unfold matchHere.
  destruct (Str.startsWith _ s) eqn:Hs; [|done].
  apply startsWith_inv in Hs. destruct Hne. by rewrite Hs.
Qed.

Lemma matchHere_from t :
  matchHere ($"from " ++ t)
  = match t with
    | q :: t' =>
        if isQuote q then
          match spanBody t' with
          | (c :: b, q' :: rest) => Some (Match q (c :: b) q', rest)
          | _ => None
          end
        else None
    | [] => None
    end.
Proof. unfold matchHere. by rewrite startsWith_app. Qed.

Section Rescan.
Context (cwd sourcePath destPath : str).

Let P := fun s => processImportPaths cwd s sourcePath destPath.

Lemma P_lit c s : matchHere (c :: s) = None -> P (c :: s) = c :: P s.
Proof. apply replace_lit. Qed.

Lemma P_not_f c s : c <> "f" -> P (c :: s) = c :: P s.
Proof. intros Hc. by apply P_lit, matchHere_not_f. Qed.

Lemma P_match s q p q' rest :
  matchHere s = Some (Match q p q', rest) ->
  P s = rewriteChunk cwd sourcePath destPath (Match q p q') ++ P rest.
Proof. apply replace_match. Qed.

Lemma P_quoteFree s : quoteFree s -> P s = s.
Proof.
  intros Hs. apply replace_one_quote. rewrite quoteFree_quotes; [lia|done].
Qed.

(** A rewritten clause starts like the clause it replaces. *)
Lemma rewriteChunk_from q p q' :
  exists t,
    rewriteChunk cwd sourcePath destPath (Match q p q') = $"from " ++ t.
Proof.
  unfold rewriteChunk, rewriteImport.
  destruct (Str.startsWith $"." p); eexists; reflexivity.
Qed.

Lemma P_take s : take 5 (P s) = take 5 s.
Proof.
  induction s as [|c s Hm IH|s ch rest Hm IH] using scan_ind.
  - done.
  - rewrite P_lit by done. simpl. f_equal.
    apply (f_equal (take 4)) in IH. by rewrite !take_take in IH.
  - pose proof Hm as (q & p & q' & -> & -> & _)%matchHere_Some.
    rewrite (P_match _ _ _ _ _ Hm).
    destruct (rewriteChunk_from q p q') as [t ->]. done.
Qed.

Lemma P_head c s : exists t, P (c :: s) = c :: t.
Proof.
  pose proof (P_take (c :: s)) as H.
  destruct (P (c :: s)) as [|c' t]; [done|].
  injection H as -> _. eauto.
Qed.

(** Where the scan of the content finds no match, the scan of the
    rewritten content finds none. *)
Lemma matchHere_None_P c s :
  matchHere (c :: s) = None -> matchHere (c :: P s) = None.
Proof.
  intros Hm.
  destruct (decide (take 5 (c :: s) = $"from ")) as [Ht|Ht].
  - assert (exists t, c :: s = $"from " ++ t) as [t Hs].
    { exists (drop 5 (c :: s)). by rewrite <- Ht, take_drop. }
    clear Ht. injection Hs as -> ->.
    rewrite !P_not_f by done.
    change ("f" :: "r" :: "o" :: "m" :: " " :: ?x) with ($"from " ++ x)
      in Hm |- *.
    rewrite matchHere_from in Hm |- *.
    destruct t as [|q t']; [done|].
    destruct (isQuote q) eqn:Hq.
    + assert (q <> "f") by (by intros ->). rewrite P_not_f, Hq by done.
      destruct (spanBody t') as [b r] eqn:Hsp.
      apply spanBody_spec in Hsp as (-> & Hb & Hr).
      destruct b as [|c0 b].
      * simpl in *. destruct Hr as [->|(q0 & r' & -> & Hq0)]; [done|].
        assert (q0 <> "f") by (by intros ->).
        rewrite P_not_f by done. simpl. by rewrite Hq0.
      * destruct Hr as [->|(q0 & r' & -> & Hq0)]; [|done].
        rewrite app_nil_r, P_quoteFree by done.
        by rewrite spanBody_quoteFree.
    + destruct (P_head q t') as [u ->]. by rewrite Hq.
  - apply matchHere_take. simpl.
    pose proof (P_take s) as H. apply (f_equal (take 4)) in H.
    rewrite !take_take in H. simpl in H, Ht. by rewrite H.
Qed.

Lemma chunks_P s :
  (forall q p q',
      Match q p q' ∈ chunks s -> Str.startsWith $"." p = true ->
      quoteFree (normalizedPath cwd sourcePath destPath p)) ->
  chunks (P s) = map (rewrittenChunk cwd sourcePath destPath) (chunks s).
Proof.
  induction s as [|c s Hm IH|s ch rest Hm IH] using scan_ind;
    intros Hfree.
  - done.
  - rewrite P_lit, !chunks_lit by (done || by apply matchHere_None_P).
    simpl. f_equal. apply IH. intros q p q' Hin.
    apply (Hfree q p q'). rewrite chunks_lit by done. by right.
  - pose proof Hm as (q & p & q' & -> & Hs & Hq & Hq' & Hp & Hpf)
                       %matchHere_Some.
    rewrite (P_match _ _ _ _ _ Hm), (chunks_match _ _ _ Hm).
    assert (IH' : chunks (P rest)
                  = map (rewrittenChunk cwd sourcePath destPath)
                      (chunks rest)).
    { apply IH. intros q0 p0 q0' Hin. apply (Hfree q0 p0 q0').
      rewrite (chunks_match _ _ _ Hm). by right. }
    rewrite map_cons, <- IH'. apply chunks_match.
    unfold rewrittenChunk, rewriteChunk, rewriteImport.
    destruct (Str.startsWith $"." p) eqn:Hdot.
    + change ($"from '" ++ ?n ++ $"'") with ($"from " ++ "'" :: n ++ $"'").
      rewrite <- !app_assoc, <- app_comm_cons, <- app_assoc.
      change ($"'" ++ ?x) with ("'" :: x).
      apply matchHere_intro; try done.
      * rewrite normalizedPath_dotted. apply dotted_relative.
      * apply (Hfree q p q'); [|done].
        rewrite (chunks_match _ _ _ Hm). by left.
    + unfold chunkText. rewrite <- !app_assoc. simpl.
      rewrite <- !app_assoc. by apply matchHere_intro.
Qed.

End Rescan.

Lemma isQuote_slash : isQuote "/" = false.
Proof. reflexivity. Qed.

Lemma isQuote_dot : isQuote "." = false.
Proof. reflexivity. Qed.

Lemma normalizedPath_quoteFree cwd sourcePath destPath p :
  Path.isAbsolute cwd = true ->
  quoteFree cwd -> quoteFree sourcePath -> quoteFree p ->
  quoteFree (normalizedPath cwd sourcePath destPath p).
Proof.
  intros Habs Hcwd Hsrc Hp. rewrite normalizedPath_dotted.
  apply (dotted_chars _ isQuote_slash isQuote_dot).
  apply (relative_chars _ isQuote_slash isQuote_dot); [done|done|].
  apply (resolve_chars _ isQuote_slash); [done|done|].
  apply Forall_cons. split.
  - by apply (dirname_chars _ isQuote_slash isQuote_dot).
  - by apply Forall_cons.
Qed.



End RewriterFacts.

Section RewriterClaims.
Import FromRegex StrFacts PathSpec RegexSpec PathFacts FromRegexFacts
  RewriterFacts.





(** A quote in the source path is copied into the specifier and ends it
    early: the hypothesis on the source path cannot be dropped. *)
Example processImportPaths_quote_in_path :
  let cwd := $"/p" in
  let destPath := $"/p/main.ts" in
  let once :=
    processImportPaths cwd $"import x from './y';"
      $"/p/.'a/main.ts" destPath in
  once = $"import x from '.'a/y';"
  /\ processImportPaths cwd once destPath destPath
     = $"import x from './'a/y';".
Proof. vm_compute. done. Qed.

(** At the call site of [generateEntry] the template lies in the framework
    directory, below the directory of the destination: the relative path
    starts with the dot of that directory's name, so the written specifier
    gets no dot and slash in front. *)
Example processImportPaths_dot_directory :
  processImportPaths $"/p" $"import x from './router';"
    $"/p/src/.tnf/client.tsx" $"/p/src/client.tsx"
  = $"import x from '.tnf/router';"
  /\ Str.startsWith $"./" $".tnf/router" = false
  /\ Path.resolve $"/p" [$"/p/src"; $".tnf/router"]
     = Path.resolve $"/p" [$"/p/src/.tnf"; $"./router"].
Proof. vm_compute. done. Qed.

End RewriterClaims.




(** * The commands *)

(** Unfolds the operations of the monad and of the collaborators. *)
Ltac split_all := repeat (match goal with |- _ /\ _ => split end).

Ltac run :=
  unfold assert, existsSync, ensureDirSync, writeFile, readFile, log,
    confirm, select, loadConfig, sync, tryCatch, bind, ret, throw, emit,
    getConfig, setConfig, getFs, setFs;
  cbn [fs config trace files dirs path success message negb andb].

(** Two names that end differently differ. *)
Ltac ends_differently :=
  let E := fresh in
  intros ? ? E; apply (f_equal (@rev ascii)) in E;
  rewrite !rev_app_distr in E; simpl in E; congruence.

Section WriterClaims.

Context (env : Env).

Lemma tryWrite_outcome filePath content w :
  tryWrite env filePath content w
  = match env_writeFault env filePath with
    | None =>
        (Ret {| path := filePath; success := true;
                message := $"Generated file at: " ++ filePath |},
         {| fs := {| files := <[filePath := content]> (files (fs w));
                     dirs := dirs (fs w) |};
            config := config w;
            trace := trace w ++ [EvWrite filePath content] |})
    | Some t =>
        (Ret {| path := filePath; success := false;
                message := $"Failed to write file: " ++ t |},
         {| fs := fs w; config := config w;
            trace := trace w ++ [EvWrite filePath content] |})
    end.
Proof.
  unfold tryWrite. run. destruct (env_writeFault env filePath); run; done.
Qed.

Lemma updateConfigFile_outcome dir c w :
  updateConfigFile env dir c w
  = match env_writeFault env (configPath env dir) with
    | None =>
        (Ret {| path := configPath env dir; success := true;
                message := $"Updated config file at: "
                             ++ CONFIG_FILE env ++ $".ts" |},
         {| fs := {| files := <[configPath env dir := configContent c]>
                                (files (fs w));
                     dirs := dirs (fs w) |};
            config := config w;
            trace := trace w
                       ++ [EvWrite (configPath env dir) (configContent c)] |})
    | Some t =>
        (Ret {| path := configPath env dir; success := false;
                message := $"Failed to update config file: " ++ t |},
         {| fs := fs w; config := config w;
            trace := trace w
                       ++ [EvWrite (configPath env dir) (configContent c)] |})
    end.
Proof.
  unfold updateConfigFile. run.
  destruct (env_writeFault env (configPath env dir)); run; done.
Qed.

Lemma writeFileWithConfirmation_outcome filePath content question w :
  writeFileWithConfirmation env filePath content question w
  = if existsIn (fs w) filePath then
      let asked := {| fs := fs w; config := config w;
                      trace := trace w ++ [EvConfirm question] |} in
      match env_confirm env question with
      | No => (Ret (skipped filePath), asked)
      | Yes | Cancelled => tryWrite env filePath content asked
      end
    else tryWrite env filePath content w.
Proof.
  unfold writeFileWithConfirmation. run.
  destruct (existsIn (fs w) filePath); [|done].
  by destruct (env_confirm env question).
Qed.

(** C3.  [writeFileWithConfirmation] always returns a result for the given
    path and never throws.  When something exists at the path it asks the
    question it was given; on the answer no it returns the skip result and
    leaves the file system as it was.  On the answer yes, or when nothing
    existed, it writes: the file then holds the content, whatever it held
    before, unless the write fails, in which case the failure is the
    returned result and the file system is as it was. *)
Theorem writeFileWithConfirmation_outcomes
  (filePath content question : str) (w : World) :
  exists r w',
    writeFileWithConfirmation env filePath content question w = (Ret r, w')
    /\ path r = filePath
    /\ config w' = config w
    /\ (existsIn (fs w) filePath = true ->
        exists rest, trace w' = trace w ++ EvConfirm question :: rest)
    /\ (existsIn (fs w) filePath = true ->
        env_confirm env question = No ->
        r = skipped filePath /\ fs w' = fs w
        /\ trace w' = trace w ++ [EvConfirm question])
    /\ (existsIn (fs w) filePath = false
        \/ env_confirm env question = Yes ->
        match env_writeFault env filePath with
        | None =>
            success r = true
            /\ files (fs w') = <[filePath := content]> (files (fs w))
            /\ files (fs w') !! filePath = Some content
            /\ dirs (fs w') = dirs (fs w)
        | Some t =>
            success r = false
            /\ message r = $"Failed to write file: " ++ t
            /\ fs w' = fs w
        end)
    /\ (existsIn (fs w) filePath = false ->
        trace w' = trace w ++ [EvWrite filePath content]).
Proof.
  rewrite writeFileWithConfirmation_outcome.
  destruct (existsIn (fs w) filePath) eqn:Hex;
    [destruct (env_confirm env question) eqn:Hans|];
    rewrite ?tryWrite_outcome;
    destruct (env_writeFault env filePath) as [t|] eqn:Hf;
    (eexists _, _; split; [reflexivity|]);
    cbn [path success message fs config trace files dirs];
    rewrite ?lookup_insert_eq, <- ?app_assoc;
    repeat (match goal with |- _ /\ _ => split end);
    try done; try (by intros [?|?]); eauto.
Qed.

End WriterClaims.

Lemma writes_app tr1 tr2 : writes (tr1 ++ tr2) = writes tr1 ++ writes tr2.
Proof.
  induction tr1 as [|e tr1 IH]; [done|]. destruct e; simpl; by rewrite ?IH.
Qed.

Section PageClaims.

Context (env : Env).

Lemma pagePath_ne_styleModulePath opts :
  pagePath opts <> styleModulePath opts.
Proof.
  unfold pagePath, styleModulePath.
  apply PathFacts.join_ne; try (simpl; lia); try compute_done.
  ends_differently.
Qed.



End PageClaims.

Lemma syncs_app tr1 tr2 : syncs (tr1 ++ tr2) = syncs tr1 ++ syncs tr2.
Proof.
  induction tr1 as [|e tr1 IH]; [done|]. destruct e; simpl; by rewrite ?IH.
Qed.

Lemma reads_app tr1 tr2 : reads (tr1 ++ tr2) = reads tr1 ++ reads tr2.
Proof.
  induction tr1 as [|e tr1 IH]; [done|]. destruct e; simpl; by rewrite ?IH.
Qed.

(** Settles equations between the projections of traces. *)
Ltac traces :=
  rewrite ?syncs_app, ?writes_app, ?reads_app, <- ?app_assoc; simpl;
  rewrite ?app_nil_r; try done.

Lemma getProp_setProp k v o : Json.getProp k (Json.setProp k v o) = Some v.
Proof.
  induction o as [|[k' v'] o IH]; simpl.
  - unfold Str.eqb. by rewrite bool_decide_eq_true_2.
  - destruct (Str.eqb k k') eqn:E; simpl; rewrite ?E; [|done].
    unfold Str.eqb. by rewrite bool_decide_eq_true_2.
Qed.

(** Runs the commands: unfolds the monad, uses what is known of the writers
    and splits on what the environment answers. *)
Ltac crunch :=
  repeat (run;
          first
            [ rewrite writeFileWithConfirmation_outcome
            | rewrite tryWrite_outcome
            | rewrite updateConfigFile_outcome
            | match goal with
              | |- context [match ?x with _ => _ end] =>
                  lazymatch x with
                  | context [match _ with _ => _ end] => fail
                  | _ => destruct x eqn:?
                  end
              end ]).


Section EntryClaims.

Context (env : Env).

(** C4.  When the framework directory does not exist, [generateEntry] loads
    the configuration and calls the synchronisation step before anything
    else, with the working directory, the framework directory and the mode
    development, and does not call it again; a read of the template can
    only come after.  If the step returns and the template is still not
    there, the command throws the error that names the missing template,
    having called nothing else: the file system is the one the step left
    and no write was attempted. *)
Theorem generateEntry_syncs_once_then_requires_template
  (opts : GenerateOptions) (w : World) :
  existsIn (fs w) (tnfPath env (cwd opts)) = false ->
  let dir := cwd opts in
  exists o w' rest,
    generateEntry env opts w = (o, w')
    /\ trace w'
       = trace w ++ EvLoadConfig dir
                 :: EvSync dir (tnfPath env dir) $"development" :: rest
    /\ syncs rest = []
    /\ syncs (trace w')
       = syncs (trace w) ++ [(dir, tnfPath env dir, $"development")]
    /\ (forall fs1,
          afterSync env opts w = (None, fs1) ->
          existsIn fs1 (clientSrcPath env dir) = false ->
          o = Throw templateMissing /\ fs w' = fs1 /\ rest = []
          /\ config w' = config w
          /\ writes (trace w') = writes (trace w)
          /\ reads (trace w') = reads (trace w)).
Proof.
  intros Hex dir. subst dir. unfold afterSync. rewrite Hex.
  unfold generateEntry. run. rewrite Hex. run.
  destruct (env_sync env (env_loadConfig env (cwd opts)) (cwd opts)
              (tnfPath env (cwd opts)) $"development" (fs w))
    as [[e|] fs1] eqn:Hsync; run.
  { eexists _, _, []. split; [reflexivity|]. run.
    split_all; traces. }
  destruct (existsIn fs1 (clientSrcPath env (cwd opts))) eqn:Hsrc; run.
  2:{ eexists _, _, []. split; [reflexivity|]. run.
      split_all; traces. by intros ? [= <-] _. }
  crunch;
    (eexists _, _, _; split; [reflexivity|]; run; split_all;
     [ rewrite <- ?app_assoc; simpl; reflexivity
     | reflexivity
     | traces
     | intros ? [= <-] ?; congruence ]).
Qed.

Lemma existsIn_file f p c : files f !! p = Some c -> existsIn f p = true.
Proof.
  intros H. unfold existsIn. rewrite bool_decide_eq_true_2; [done|].
  by rewrite H.
Qed.


Lemma withClient_client c :
  exists entry,
    Json.getProp $"entry" (withClient c) = Some (JObj entry)
    /\ Json.getProp $"client" entry = Some (JStr $"src/client.tsx").
Proof.
  unfold withClient. eexists. split; apply getProp_setProp.
Qed.


End EntryClaims.

Section TailwindClaims.

Context (env : Env).







End TailwindClaims.

(** * The dispatchers: claim C8 *)












Section Extends.

Context (env : Env).










End Extends.



(** * The configuration updater: claim C9 *)

(** C9.  [updateConfigFile] never throws and asks nothing: it attempts one
    write of the configuration file, which then holds the new content
    whatever it held, or the failure is the returned result.  The content,
    though, is not the serialisation with the keys unquoted: the expression
    that removes the quotes of the keys also matches inside a string value
    that holds a quote followed by a colon, and removes quotes there. *)
Theorem updateConfigFile_unquotes_inside_string_values :
  (forall env dir c w,
      exists r w',
        updateConfigFile env dir c w = (Ret r, w')
        /\ path r = configPath env dir
        /\ trace w'
           = trace w ++ [EvWrite (configPath env dir) (configContent c)]
        /\ match env_writeFault env (configPath env dir) with
           | None =>
               success r = true
               /\ files (fs w')
                  = <[configPath env dir := configContent c]> (files (fs w))
           | Some t =>
               success r = false
               /\ message r = $"Failed to update config file: " ++ t
               /\ fs w' = fs w
           end)
  /\ configContent jsonValuedConfig
     = $"export default {
  define: {
    API: " ++ Json.dquote :: $"{\a\:1}" ++ Json.dquote :: $"
  }
}"
  /\ specConfigContent jsonValuedConfig
     = $"export default {
  define: {
    API: " ++ Json.dquote :: $"{\" ++ Json.dquote :: $"a\" ++ Json.dquote
       :: $":1}" ++ Json.dquote :: $"
  }
}"
  /\ configContent jsonValuedConfig <> specConfigContent jsonValuedConfig.
Proof.
  split; [|split; [|split]].
  - intros env dir c w. rewrite updateConfigFile_outcome.
    destruct (env_writeFault env (configPath env dir));
      by eexists _, _.
  - vm_compute. reflexivity.
  - vm_compute. reflexivity.
  - vm_compute. discriminate.
Qed.

(** * The commands on a concrete project *)


Lemma writeFileWithConfirmation_outcomes_witness :
  exists r w',
    writeFileWithConfirmation demoEnv $"/p/tailwind.config.js" $"new"
      $"overwrite?" tailwindWorld = (Ret r, w')
    /\ r = skipped $"/p/tailwind.config.js"
    /\ fs w' = fs tailwindWorld.
Proof.
  destruct (writeFileWithConfirmation_outcomes demoEnv
              $"/p/tailwind.config.js" $"new" $"overwrite?" tailwindWorld)
    as (r & w' & Hrun & _ & _ & _ & Hno & _).
  destruct Hno as (Hr & Hfs & _); try (vm_compute; reflexivity).
  by exists r, w'.
Defined.

Lemma generateEntry_syncs_once_then_requires_template_witness :
  exists w',
    generateEntry idleEnv demoOpts emptyWorld = (Throw templateMissing, w')
    /\ syncs (trace w') = [($"/p", $"/p/src/.tnf", $"development")]
    /\ writes (trace w') = [].
Proof.
  destruct (generateEntry_syncs_once_then_requires_template idleEnv demoOpts
              emptyWorld eq_refl)
    as (o & w' & rest & Hrun & _ & _ & Hsyncs & Hmissing).
  destruct (Hmissing (fs emptyWorld)) as (-> & _ & _ & _ & Hwrites & _);
    try (vm_compute; reflexivity).
  exists w'. split; [exact Hrun|]. split; [exact Hsyncs|exact Hwrites].
Defined.



(** * Further properties of the code *)

(** ** Further properties: the import-path rewriter *)

Section RewriterExtras.
Import FromRegex StrFacts PathSpec RegexSpec PathFacts FromRegexFacts
  RewriterFacts RewriterSpec.

Lemma rewrite_rewritten_to cwd a b c l :
  Path.isAbsolute cwd = true ->
  flat_map (rewriteChunk cwd b c) (map (rewrittenChunk cwd a b) l)
  = flat_map (rewriteChunk cwd a c) l.
Proof.
  intros Habs. induction l as [|ch l IH]; [done|].
  rewrite map_cons. simpl flat_map. rewrite IH. f_equal.
  destruct ch as [x|q p q']; [done|].
  unfold rewrittenChunk, rewriteChunk, rewriteImport.
  destruct (Str.startsWith $"." p) eqn:Hdot; [|by rewrite Hdot].
  rewrite (normalizedPath_dotted cwd a b) at 1. rewrite dotted_starts.
  rewrite (normalizedPath_dotted cwd b c).
  rewrite normalizedPath_resolve by done. reflexivity.
Qed.

(** X1.  Moving a content from [a] to [b] and then from [b] to [c] rewrites
    its imports as moving it from [a] to [c] at once does. *)
Theorem processImportPaths_composes (cwd content a b c : str) :
  Path.isAbsolute cwd = true ->
  quoteFree cwd -> quoteFree a ->
  processImportPaths cwd (processImportPaths cwd content a b) b c
  = processImportPaths cwd content a c.
Proof.
  intros Habs Hcwd Ha.
  rewrite (processImportPaths_chunks cwd (processImportPaths _ _ _ _)).
  rewrite chunks_P.
  - rewrite rewrite_rewritten_to by done. reflexivity.
  - intros q p q' Hin _. apply normalizedPath_quoteFree; try done.
    by apply chunks_Match in Hin as (_ & _ & _ & ?).
Qed.

Lemma processImportPaths_composes_witness :
  processImportPaths $"/p"
    (processImportPaths $"/p" $"import x from './router';"
       $"/p/src/.tnf/client.tsx" $"/p/src/client.tsx")
    $"/p/src/client.tsx" $"/p/lib/deep/client.tsx"
  = processImportPaths $"/p" $"import x from './router';"
      $"/p/src/.tnf/client.tsx" $"/p/lib/deep/client.tsx".
Proof.
  apply processImportPaths_composes;
    [reflexivity|by repeat constructor|by repeat constructor].
Defined.

(** X2.  A content none of whose clauses has a specifier starting with a
    dot comes back as it is, for every source and destination. *)
Theorem processImportPaths_keeps_package_imports
  (cwd content sourcePath destPath : str) :
  noRelative content = true ->
  processImportPaths cwd content sourcePath destPath = content.
Proof.
  intros Hno. rewrite processImportPaths_chunks.
  rewrite <- (chunks_text content) at 2.
  unfold noRelative in Hno. revert Hno.
  induction (chunks content) as [|ch l IH]; [done|].
  simpl. intros [Hch Hl]%andb_prop. rewrite IH by done. f_equal.
  destruct ch as [x|q p q']; [done|].
  unfold rewriteChunk, rewriteImport.
  change (negb (Str.startsWith $"." p) = true) in Hch.
  by destruct (Str.startsWith $"." p).
Qed.

Lemma processImportPaths_keeps_package_imports_witness :
  processImportPaths $"/p" $"import React from 'react'; import './a.css';"
    $"/p/src/.tnf/client.tsx" $"/p/src/client.tsx"
  = $"import React from 'react'; import './a.css';".
Proof.
  apply processImportPaths_keeps_package_imports. vm_compute. reflexivity.
Defined.

(** X3.  Rewriting neither adds nor removes a clause, and a clause is
    relative after the rewriting exactly when it was before: the chunks of
    the result are, one for one, characters for characters and clauses for
    clauses of the same kind. *)
Theorem processImportPaths_keeps_clauses
  (cwd content sourcePath destPath : str) :
  Path.isAbsolute cwd = true ->
  quoteFree cwd -> quoteFree sourcePath ->
  let result := processImportPaths cwd content sourcePath destPath in
  length (chunks result) = length (chunks content)
  /\ map isRelative (chunks result) = map isRelative (chunks content)
  /\ Forall2 (fun before after =>
                match before with
                | Lit x => after = Lit x
                | Match q p q' =>
                    if Str.startsWith $"." p
                    then exists p', after = Match "'" p' "'"
                    else after = before
                end) (chunks content) (chunks result).
Proof.
  intros Habs Hcwd Hsrc result. subst result.
  rewrite chunks_P.
  2:{ intros q p q' Hin _. apply normalizedPath_quoteFree; try done.
      by apply chunks_Match in Hin as (_ & _ & _ & ?). }
  split; [by rewrite length_map|]. split.
  - rewrite map_map. apply map_ext. intros [x|q p q']; [done|].
    unfold rewrittenChunk, isRelative.
    destruct (Str.startsWith $"." p) eqn:Hdot; [|done].
    by rewrite normalizedPath_dotted, dotted_starts.
  - induction (chunks content) as [|ch l IH]; [constructor|].
    rewrite map_cons. constructor; [|done].
    destruct ch as [x|q p q']; [done|]. unfold rewrittenChunk.
    destruct (Str.startsWith $"." p); [by eexists|done].
Qed.

Lemma processImportPaths_keeps_clauses_witness :
  length (chunks (processImportPaths $"/p"
                    $"import a from '../b'; import c from 'c';"
                    $"/p/src/.tnf/client.tsx" $"/p/src/client.tsx"))
  = length (chunks $"import a from '../b'; import c from 'c';").
Proof.
  apply (processImportPaths_keeps_clauses $"/p"
           $"import a from '../b'; import c from 'c';"
           $"/p/src/.tnf/client.tsx" $"/p/src/client.tsx");
    [reflexivity|by repeat constructor|by repeat constructor].
Defined.

End RewriterExtras.

(** ** Further properties: the page generator and the dispatchers *)

Lemma logs_app tr1 tr2 : logs (tr1 ++ tr2) = logs tr1 ++ logs tr2.
Proof.
  induction tr1 as [|e tr1 IH]; [done|]. destruct e; simpl; by rewrite ?IH.
Qed.

Section PageExtras.

Context (env : Env).

Lemma generatePage_taken opts w :
  falsy (name opts) = false ->
  existsIn (fs w) (pagePath opts) = true
  \/ existsIn (fs w) (styleModulePath opts) = true ->
  generatePage env opts w
  = (Throw (AssertionError
              ($"Page " ++ text (name opts) ++ $" already exists.")), w).
Proof.
  intros Hfalsy Hex. unfold generatePage. run. rewrite Hfalsy. run.
  destruct Hex as [H | H]; rewrite H.
  - reflexivity.
  - by destruct (existsIn (fs w) (pagePath opts)).
Qed.



(** X6.  A page is generated once: after a run of [generatePage] that
    returned, a second run with the same options throws the assertion error
    that the page already exists, and leaves the world of the first run as it
    is. *)
Theorem generatePage_twice (opts : GenerateOptions) (w w' : World) :
  generatePage env opts w = (Ret tt, w') ->
  generatePage env opts w'
  = (Throw (AssertionError
              ($"Page " ++ text (name opts) ++ $" already exists.")), w').
Proof.
  unfold generatePage at 1. run.
  destruct (falsy (name opts)) eqn:Hfalsy; run; [done|].
  destruct (existsIn (fs w) (pagePath opts)); run; [done|].
  destruct (existsIn (fs w) (styleModulePath opts)); run; [done|].
  destruct (env_writeFault env (pagePath opts)); run; [done|].
  destruct (env_writeFault env (styleModulePath opts)); run; [done|].
  intros [= <-]. apply generatePage_taken; [done|]. left.
  apply (existsIn_file _ _ (pageContent (text (name opts)))).
  cbn [fs files]. rewrite lookup_insert_ne
    by (apply not_eq_sym, pagePath_ne_styleModulePath).
  by rewrite lookup_insert_eq.
Qed.

End PageExtras.


Lemma generatePage_twice_witness :
  exists w',
    generatePage demoEnv demoOpts emptyWorld = (Ret tt, w')
    /\ generatePage demoEnv demoOpts w'
       = (Throw (AssertionError $"Page about already exists."), w').
Proof.
  eexists. split; [vm_compute; reflexivity|].
  apply (generatePage_twice demoEnv demoOpts emptyWorld).
  vm_compute. reflexivity.
Defined.

Section DispatchExtras.

Context (env : Env).

Lemma ownHandler_None t :
  t ∉ handlerNames -> ownHandler t (commandHandler env) = None.
Proof.
  unfold handlerNames. rewrite !not_elem_of_cons. intros (H1 & H2 & H3 & _).
  unfold commandHandler, ownHandler, Str.eqb.
  by rewrite !bool_decide_eq_false_2.
Qed.

Lemma inheritedCall_None t table :
  t ∉ map fst table -> inheritedCall t table = None.
Proof.
  induction table as [|[k b] table IH]; [done|].
  rewrite map_cons, not_elem_of_cons. intros [Hne Hin]. simpl.
  unfold Str.eqb. rewrite bool_decide_eq_false_2 by done. by apply IH.
Qed.

(** X7.  With a type that names no handler (no own property of the handler
    table and none it inherits), [generate] throws the error that names the
    unknown command.  It does so before it loads the configuration and before
    it prompts: the world is the one it started in. *)
Theorem generate_unknown_command
  (opts : GenerateOptions) (t : str) (w : World) :
  type opts = Some t -> t <> [] ->
  t ∉ handlerNames -> t ∉ map fst inherited ->
  generate env opts w = (Throw (Error ($"Unknown command: " ++ t)), w).
Proof.
  intros Htype Hne Hown Hinh. unfold generate. rewrite Htype.
  assert (falsy (Some t) = false) as -> by by destruct t.
  run. by rewrite ownHandler_None, inheritedCall_None.
Qed.

End DispatchExtras.

Lemma generate_unknown_command_witness :
  generate demoEnv {| cwd := $"/p"; type := Some $"pages"; name := None |}
    emptyWorld
  = (Throw (Error $"Unknown command: pages"), emptyWorld).
Proof.
  apply generate_unknown_command; [reflexivity|done| |]; compute_done.
Defined.

Section ContextExtras.

Context (generatePage generateTailwindcss : ContextDispatch.Context -> M unit).

(** X8.  The dispatcher of [src/generate/generate.ts] runs a handler for
    the types [page] and [tailwindcss] only, on the arguments without the
    first two.  For every other type it throws and changes nothing, whatever
    the handlers are: an absent or empty type is not implemented, any other
    one is unknown. *)
Theorem context_generate_routes
  (context : ContextDispatch.Context) (w : World) :
  let type := ContextDispatch.argv_ context !! 1 in
  let context' :=
    {| ContextDispatch.argv_ := drop 2 (ContextDispatch.argv_ context) |} in
  let run := ContextDispatch.generate generatePage generateTailwindcss in
  (type = Some $"page" -> run context w = generatePage context' w)
  /\ (type = Some $"tailwindcss" ->
      run context w = generateTailwindcss context' w)
  /\ (type <> Some $"page" -> type <> Some $"tailwindcss" ->
      exists m, run context w = (Throw (Error m), w)
                /\ (falsy type = true -> m = $"Not implemented")
                /\ (falsy type = false ->
                    m = $"Unknown type: " ++ text type)).
Proof.
  intros type context' run. subst type context' run.
  unfold ContextDispatch.generate.
  destruct (ContextDispatch.argv_ context !! 1) as [t|] eqn:Ht.
  - split_all.
    + by intros [= ->].
    + by intros [= ->].
    + intros Hp Ht'. destruct (falsy (Some t)) eqn:Hf; [by eexists|].
      assert (Hp' : t <> $"page") by (by intros ->).
      assert (Ht'' : t <> $"tailwindcss") by (by intros ->).
      unfold Str.eqb, text, default.
      rewrite !bool_decide_eq_false_2 by done. by eexists.
  - split_all; try done. intros _ _. by eexists.
Qed.

End ContextExtras.

Lemma context_generate_routes_witness :
  ContextDispatch.generate (fun _ => ret tt) (fun _ => ret tt)
    {| ContextDispatch.argv_ := [$"generate"; $"entry"] |} emptyWorld
  = (Throw (Error $"Unknown type: entry"), emptyWorld).
Proof.
  destruct (context_generate_routes (fun _ => ret tt) (fun _ => ret tt)
              {| ContextDispatch.argv_ := [$"generate"; $"entry"] |}
              emptyWorld) as (_ & _ & H).
  destruct H as (m & -> & _ & ->); done.
Defined.

(** ** Further properties: footprints of the commands *)

Lemma getProp_setProp_ne k k' v o :
  k' <> k -> Json.getProp k' (Json.setProp k v o) = Json.getProp k' o.
Proof.
  intros Hne. induction o as [|[k0 v0] o IH]; simpl.
  - unfold Str.eqb. by rewrite bool_decide_eq_false_2.
  - destruct (Str.eqb k k0) eqn:E; simpl; [|by rewrite IH].
    apply bool_decide_eq_true_1 in E. subst k0.
    unfold Str.eqb. by rewrite !bool_decide_eq_false_2.
Qed.

Lemma setProp_setProp k v v' o :
  Json.setProp k v (Json.setProp k v' o) = Json.setProp k v o.
Proof.
  induction o as [|[k0 v0] o IH]; simpl.
  - unfold Str.eqb. by rewrite bool_decide_eq_true_2.
  - destruct (Str.eqb k k0) eqn:E; simpl; rewrite ?E; [|by rewrite IH].
    unfold Str.eqb. by rewrite bool_decide_eq_true_2.
Qed.

Section Confined.

Context (F : footprint).

Lemma within_refl w : within F w w.
Proof.
  unfold within. split_all; try done. exists []. by rewrite app_nil_r.
Qed.

Lemma within_trans w1 w2 w3 :
  within F w1 w2 -> within F w2 w3 -> within F w1 w3.
Proof.
  intros ((r1 & Ht1 & Hr1) & Hf1 & Hd1 & Hc1)
         ((r2 & Ht2 & Hr2) & Hf2 & Hd2 & Hc2).
  unfold within. split_all.
  - exists (r1 ++ r2). rewrite Ht2, Ht1, app_assoc. split; [done|].
    by apply Forall_app.
  - intros p Hp. by rewrite Hf2, Hf1.
  - intros d Hd. by rewrite Hd2, Hd1.
  - intros k Hk. by rewrite Hc2, Hc1.
Qed.

Lemma confined_ret {A} (a : A) : confined F (ret a).
Proof. intros w. apply within_refl. Qed.

Lemma confined_throw {A} e : confined F (@throw A e).
Proof. intros w. apply within_refl. Qed.

Lemma confined_getFs : confined F getFs.
Proof. intros w. apply within_refl. Qed.

Lemma confined_getConfig : confined F getConfig.
Proof. intros w. apply within_refl. Qed.

Lemma confined_emit e : fp_events F e -> confined F (emit e).
Proof.
  intros He w. unfold within. split_all; try done.
  exists [e]. split; [done|].
  by constructor.
Qed.

Lemma confined_bind {A B} (m : M A) (k : A -> M B) :
  confined F m -> (forall a, confined F (k a)) -> confined F (bind m k).
Proof.
  intros Hm Hk w. unfold bind. pose proof (Hm w) as H1.
  destruct (m w) as [[a|e] w1]; [|done].
  eapply within_trans; [exact H1|apply Hk].
Qed.

Lemma confined_tryCatch {A} (m : M A) (h : error -> M A) :
  confined F m -> (forall e, confined F (h e)) -> confined F (tryCatch m h).
Proof.
  intros Hm Hh w. unfold tryCatch. pose proof (Hm w) as H1.
  destruct (m w) as [[a|e] w1]; [done|].
  eapply within_trans; [exact H1|apply Hh].
Qed.

(** An assignment to the configuration object that keeps the settings
    outside the footprint. *)
Lemma confined_assign {B} (f : Config -> Config) (rest : unit -> M B) :
  (forall c k, ~ fp_settings F k ->
               Json.getProp k (f c) = Json.getProp k c) ->
  (forall u, confined F (rest u)) ->
  confined F (c <- getConfig ;; bind (setConfig (f c)) rest).
Proof.
  intros Hf Hrest w. run. eapply within_trans; [|apply Hrest].
  unfold within. split_all; try done.
  - exists []. by rewrite app_nil_r.
  - intros k Hk. by apply Hf.
Qed.

Lemma confined_ensureDirSync d :
  fp_events F (EvEnsureDir d) -> fp_dirs F d ->
  confined F (ensureDirSync d).
Proof.
  intros He Hd w. run. unfold within. cbn [snd fs dirs files trace config].
  split_all; try done.
  - exists [EvEnsureDir d]. split; [done|]. by constructor.
  - intros d' Hd'. rewrite elem_of_union, elem_of_singleton.
    split; [|tauto]. intros [->|?]; done.
Qed.

Lemma confined_writeFile env p c :
  fp_events F (EvWrite p c) -> fp_files F p ->
  confined F (writeFile env p c).
Proof.
  intros He Hp w. run.
  destruct (env_writeFault env p); run; unfold within;
    cbn [snd fs dirs files trace config]; split_all; try done;
    try (exists [EvWrite p c]; split; [done|]; by constructor).
  intros p' Hp'. apply lookup_insert_ne. by intros ->.
Qed.

Lemma confined_writeFileWithConfirmation env p c q :
  fp_events F (EvConfirm q) -> fp_events F (EvWrite p c) -> fp_files F p ->
  confined F (writeFileWithConfirmation env p c q).
Proof.
  intros Hq He Hp.
  assert (Hw : confined F (tryWrite env p c)).
  { unfold tryWrite. apply confined_tryCatch.
    - apply confined_bind; [by apply confined_writeFile|].
      intros; apply confined_ret.
    - intros; apply confined_ret. }
  unfold writeFileWithConfirmation, existsSync, confirm.
  apply confined_bind.
  { apply confined_bind; [apply confined_getFs|intros; apply confined_ret]. }
  intros [|]; [|done].
  apply confined_bind.
  { apply confined_bind; [by apply confined_emit|intros; apply confined_ret]. }
  intros [| |]; first [done | apply confined_ret].
Qed.

Lemma confined_updateConfigFile env dir c :
  fp_events F (EvWrite (configPath env dir) (configContent c)) ->
  fp_files F (configPath env dir) ->
  confined F (updateConfigFile env dir c).
Proof.
  intros He Hp. unfold updateConfigFile. apply confined_tryCatch.
  - apply confined_bind; [by apply confined_writeFile|].
    intros; apply confined_ret.
  - intros; apply confined_ret.
Qed.

Lemma confined_logSuccesses rs :
  (forall m, fp_events F (EvLog m)) -> confined F (logSuccesses rs).
Proof.
  intros Hlog. induction rs as [|r rs IH]; simpl; [apply confined_ret|].
  apply confined_bind; [|done].
  destruct (success r); [by apply confined_emit|apply confined_ret].
Qed.

Lemma confined_sync env c dir tmpPath mode :
  fp_events F (EvSync dir tmpPath mode) ->
  (forall p, fp_files F p) -> (forall d, fp_dirs F d) ->
  confined F (sync env c dir tmpPath mode).
Proof.
  intros He Hp Hd w. run.
  destruct (env_sync env c dir tmpPath mode (fs w)) as [[e|] f']; run;
    unfold within; cbn [snd fs dirs files trace config]; split_all;
    try done;
    try (exists [EvSync dir tmpPath mode]; split; [done|]; by constructor);
    intros x Hx; by first [destruct (Hx (Hp x)) | destruct (Hx (Hd x))].
Qed.

Lemma confined_setConfig c :
  (forall k, fp_settings F k) -> confined F (setConfig c).
Proof.
  intros Hk w. unfold within. simpl. split_all; try done.
  - exists []. by rewrite app_nil_r.
  - intros k Hk'. by destruct (Hk' (Hk k)).
Qed.

End Confined.

(** Proves [confined] along the structure of a command. *)
Ltac confining :=
  repeat first
    [ apply confined_assign
    | apply confined_ensureDirSync
    | apply confined_writeFile
    | apply confined_writeFileWithConfirmation
    | apply confined_updateConfigFile
    | apply confined_logSuccesses
    | apply confined_sync
    | apply confined_setConfig
    | apply confined_bind
    | apply confined_ret
    | apply confined_throw
    | apply confined_getFs
    | apply confined_getConfig
    | apply confined_emit
    | progress cbv beta
    | match goal with
      | |- forall _, _ => intro
      | |- confined _ (match ?x with _ => _ end) => destruct x
      | |- confined _ (if ?x then _ else _) => destruct x
      end ].

Section Footprints.

Context (env : Env).



End Footprints.

(** ** Further properties: the entry and Tailwind generators *)

(** Closes the cases of a run by the lines of its trace. *)
Ltac logged :=
  simpl in *; try done;
  rewrite ?logs_app; simpl; rewrite ?app_nil_r, <- ?app_assoc; done.

Section EntryExtras.

Context (env : Env).

Lemma generateEntry_present opts w :
  existsIn (fs w) (tnfPath env (cwd opts)) = true ->
  generateEntry env opts w = entryAfterSync env opts w.
Proof.
  intros Hex. unfold generateEntry, entryAfterSync.
  unfold existsSync at 1. unfold bind at 1 2 3. unfold getFs, ret at 1 2.
  by rewrite Hex.
Qed.

Lemma entryAfterSync_confined opts :
  confined (entryFootprint env opts) (entryAfterSync env opts).
Proof.
  unfold entryAfterSync, existsSync, readFile, log.
  confining; simpl; try tauto.
  unfold withClient. by apply getProp_setProp_ne.
Qed.

(** X11.  When the framework directory exists, [generateEntry] stays
    within its footprint, whether it returns or throws: it loads no
    configuration and calls no synchronisation step, reads the template
    only, asks its one question only, attempts writes of the entry file and
    of the configuration file only, creates no directory and assigns the
    setting [entry] only. *)
Theorem generateEntry_footprint (opts : GenerateOptions) (w : World) :
  existsIn (fs w) (tnfPath env (cwd opts)) = true ->
  within (entryFootprint env opts) w (snd (generateEntry env opts w)).
Proof.
  intros Hex. rewrite generateEntry_present by done.
  apply entryAfterSync_confined.
Qed.

(** X12.  When the synchronisation step throws, [generateEntry] throws the
    same error right after it: it looks for no template, reads and writes
    nothing, and the configuration object is as it was. *)
Theorem generateEntry_sync_error
  (opts : GenerateOptions) (w : World) (e : error) (fs1 : FileSystem) :
  afterSync env opts w = (Some e, fs1) ->
  let dir := cwd opts in
  generateEntry env opts w
  = (Throw e,
     {| fs := fs1; config := config w;
        trace := trace w ++ [EvLoadConfig dir;
                             EvSync dir (tnfPath env dir) $"development"] |}).
Proof.
  intros Hs. cbv zeta. unfold afterSync in Hs.
  destruct (existsIn (fs w) (tnfPath env (cwd opts))) eqn:Hex; [done|].
  unfold generateEntry. run. rewrite Hex. run. rewrite Hs. run.
  by rewrite <- app_assoc.
Qed.

(** X13.  With the template read, [generateEntry] logs what succeeded and
    nothing else: the line of the entry file when it was written, followed
    by the line of the configuration file when that write did not fail.  A
    declined or failed write of the entry file leaves no line, and the
    failure of the configuration file none either. *)
Theorem generateEntry_logs_successes
  (opts : GenerateOptions) (w : World) (fs1 : FileSystem) (content : str) :
  let dir := cwd opts in
  let dest := clientDestPath dir in
  afterSync env opts w = (None, fs1) ->
  files fs1 !! clientSrcPath env dir = Some content ->
  logs (trace (snd (generateEntry env opts w)))
  = logs (trace w)
      ++ (if written env fs1 dest entryQuestion then
            ($"Generated file at: " ++ dest)
              :: (if noFault env (configPath env dir)
                  then [$"Updated config file at: "
                          ++ CONFIG_FILE env ++ $".ts"]
                  else [])
          else []).
Proof.
  intros dir dest Hs Hread. subst dir dest.
  unfold afterSync in Hs. unfold written, noFault, declined.
  unfold generateEntry. run.
  destruct (existsIn (fs w) (tnfPath env (cwd opts))) eqn:Hex; run;
    [injection Hs as <-|rewrite Hs; run];
    rewrite (existsIn_file _ _ _ Hread); run; rewrite Hread;
    crunch; logged.

Qed.

End EntryExtras.

Lemma generateEntry_footprint_witness :
  within (entryFootprint demoEnv demoOpts) syncedWorld
    (snd (generateEntry demoEnv demoOpts syncedWorld)).
Proof. apply generateEntry_footprint. vm_compute. reflexivity. Defined.

Lemma generateEntry_sync_error_witness :
  generateEntry brokenSyncEnv demoOpts emptyWorld
  = (Throw (Error $"sync failed"),
     {| fs := fs emptyWorld; config := [];
        trace := [EvLoadConfig $"/p";
                  EvSync $"/p" $"/p/src/.tnf" $"development"] |}).
Proof.
  apply (generateEntry_sync_error brokenSyncEnv demoOpts emptyWorld).
  vm_compute. reflexivity.
Defined.

Lemma generateEntry_logs_successes_witness :
  logs (trace (snd (generateEntry demoEnv demoOpts syncedWorld)))
  = [$"Generated file at: /p/src/client.tsx";
     $"Updated config file at: .tnfrc.ts"].
Proof.
  rewrite (generateEntry_logs_successes demoEnv demoOpts syncedWorld
             (fs syncedWorld) $"import x from './router';");
    vm_compute; reflexivity.
Defined.

Section TailwindExtras.

Context (env : Env).


End TailwindExtras.

(** ** Further properties: the client entry and the prompt *)

Section ConfigExtras.

(** X15.  The two places that set the client entry agree: on a
    configuration whose [entry] is absent or an object, what [generate]
    forces on the loaded configuration is what [generateEntry] assigns after
    its write, and it never throws there. *)
Theorem forceClient_is_withClient (c : Config) (w : World) :
  Json.getProp $"entry" c = None
  \/ (exists e, Json.getProp $"entry" c = Some (JObj e)) ->
  forceClient c w = (Ret (withClient c), w).
Proof.
  unfold forceClient, withClient. by intros [-> | [e ->]].
Qed.

(** X16.  [withClient] sets the client entry and nothing else: every other
    setting of the configuration reads as before, every other field of an
    [entry] object reads as before, and a second application changes
    nothing. *)
Theorem withClient_keeps_settings (c : Config) :
  withClient (withClient c) = withClient c
  /\ (forall k, k <> $"entry" ->
        Json.getProp k (withClient c) = Json.getProp k c)
  /\ (forall e k,
        Json.getProp $"entry" c = Some (JObj e) -> k <> $"client" ->
        exists e',
          Json.getProp $"entry" (withClient c) = Some (JObj e')
          /\ Json.getProp k e' = Json.getProp k e).
Proof.
  split_all.
  - unfold withClient at 1. unfold withClient at 1.
    rewrite getProp_setProp. unfold spread at 1.
    rewrite setProp_setProp. unfold withClient.
    by rewrite setProp_setProp.
  - intros k Hk. unfold withClient. by apply getProp_setProp_ne.
  - intros e k He Hk. unfold withClient. rewrite getProp_setProp.
    eexists. split; [reflexivity|]. rewrite He. simpl.
    by apply getProp_setProp_ne.
Qed.

End ConfigExtras.

Lemma forceClient_is_withClient_witness :
  forceClient [($"entry", JObj [($"server", JStr $"src/server.ts")])]
    emptyWorld
  = (Ret [($"entry", JObj [($"server", JStr $"src/server.ts");
                           ($"client", JStr $"src/client.tsx")])],
     emptyWorld).
Proof.
  apply (forceClient_is_withClient
           [($"entry", JObj [($"server", JStr $"src/server.ts")])]).
  right. by eexists.
Defined.

Section PromptExtras.

Context (env : Env).

Lemma handler_promptFree t h opts :
  ownHandler t (commandHandler env) = Some h -> confined promptFree (h opts).
Proof.
  unfold commandHandler. simpl.
  repeat (destruct (Str.eqb t _); [intros [= <-]|]); [| | |done].
  - unfold generatePage, assert, existsSync, log.
    confining; simpl in *; tauto.
  - unfold generateTailwindcss. confining; simpl in *; tauto.
  - unfold generateEntry, existsSync, loadConfig, readFile, log.
    confining; simpl in *; tauto.
Qed.

(** X17.  With a type given, [generate] never shows the selection prompt,
    whatever the type is and whatever its handler does: no call it adds to
    the trace is a selection. *)
Theorem generate_with_type_never_prompts
  (opts : GenerateOptions) (w : World) :
  falsy (type opts) = false ->
  exists rest,
    trace (snd (generate env opts w)) = trace w ++ rest
    /\ Forall (fun e => match e with
                        | EvSelect _ _ => False
                        | _ => True
                        end) rest.
Proof.
  intros Hfalsy.
  assert (H : confined promptFree (generate env opts)).
  { unfold generate, loadConfig, forceClient. rewrite Hfalsy.
    apply confined_bind; [apply confined_ret|].
    intros [t|]; [|apply confined_throw].
    destruct (ownHandler t (commandHandler env)) as [h|] eqn:Hh.
    - confining; simpl; try tauto. by eapply handler_promptFree.
    - confining; simpl in *; tauto. }
  exact (proj1 (H w)).
Qed.

End PromptExtras.

Lemma generate_with_type_never_prompts_witness :
  exists rest,
    trace (snd (generate demoEnv
                  {| cwd := $"/p"; type := Some $"tailwindcss";
                     name := None |} tailwindWorld))
    = trace tailwindWorld ++ rest
    /\ Forall (fun e => match e with
                        | EvSelect _ _ => False
                        | _ => True
                        end) rest.
Proof. apply generate_with_type_never_prompts. reflexivity. Defined.

(** ** Further properties: the configuration file *)

Module ConfigFacts.
Import KeyRegex ConfigSpec.

Lemma json_nested_ind (P : json -> Prop) :
  P JNull -> (forall b, P (JBool b)) -> (forall n, P (JNum n)) ->
  (forall s, P (JStr s)) ->
  (forall items, Forall P items -> P (JArr items)) ->
  (forall fields, Forall (fun kv => P (snd kv)) fields -> P (JObj fields)) ->
  forall v, P v.
Proof.
  intros Hnull Hbool Hnum Hstr Harr Hobj.
  fix IH 1.
  intros [| b | n | s | items | fields];
    [apply Hnull|apply Hbool|apply Hnum|apply Hstr| |].
  - apply Harr. revert items. fix IHl 1.
    intros [|x l]; constructor; [apply IH|apply IHl].
  - apply Hobj. revert fields. fix IHl 1.
    intros [|[k x] l]; constructor; [apply IH|apply IHl].
Qed.

(** *** The unfolding of [unquoteKeys] *)

Lemma unquoteKeys_match s k rest :
  matchHere s = Some (k, rest) ->
  unquoteKeys s = k ++ ":" :: unquoteKeys rest.
Proof.
  intros H. rewrite unquoteKeys_equation_1.
  destruct (inspect (matchHere s)) as [[[k' rest']|] Heq]; simpl;
    congruence.
Qed.

Lemma unquoteKeys_lit c s :
  matchHere (c :: s) = None -> unquoteKeys (c :: s) = c :: unquoteKeys s.
Proof.
  intros H. rewrite unquoteKeys_equation_1.
  destruct (inspect (matchHere (c :: s))) as [[[k' rest']|] Heq]; simpl;
    [congruence|done].
Qed.

Lemma unquoteKeys_pre p s :
  dq ∉ p -> unquoteKeys (p ++ s) = p ++ unquoteKeys s.
Proof.
  induction p as [|c p IH]; [done|].
  rewrite not_elem_of_cons. intros [Hne Hp]. simpl.
  rewrite unquoteKeys_lit, IH; [done|done|].
  unfold matchHere. by rewrite bool_decide_eq_false_2.
Qed.

Lemma spanKey_pre p s :
  dq ∉ p -> spanKey (p ++ s) = (p ++ fst (spanKey s), snd (spanKey s)).
Proof.
  induction p as [|c p IH]; simpl; [by destruct (spanKey s)|].
  rewrite not_elem_of_cons. intros [Hne Hp].
  rewrite bool_decide_eq_false_2 by done. by rewrite IH.
Qed.

Lemma spanKey_quote s : spanKey (dq :: s) = ([], dq :: s).
Proof. reflexivity. Qed.

(** *** Tails *)

Lemma okTail_nil : okTail [].
Proof. by split. Qed.

Lemma okTail_pre p t :
  dq ∉ p -> ":" ∉ p -> okTail t -> okTail (p ++ t).
Proof.
  intros Hq Hc [Hhead Hspan]. split.
  - destruct p as [|c p]; [done|]. simpl. intros [= ->].
    apply Hc. by left.
  - rewrite spanKey_pre by done. by destruct (spanKey t).
Qed.

Lemma okTail_quoted y : head y <> Some ":" -> okTail (dq :: y).
Proof.
  intros Hy. split; [done|]. rewrite spanKey_quote.
  destruct y as [|c y]; [done|]. intros ->. by apply Hy.
Qed.

Lemma matchHere_closing t : okTail t -> matchHere (dq :: t) = None.
Proof.
  intros [_ Hspan]. unfold matchHere.
  rewrite bool_decide_eq_true_2 by done.
  destruct (spanKey t) as [[|c b] r]; [done|].
  destruct r as [|q [|colon r]]; try done.
  by rewrite bool_decide_eq_false_2.
Qed.

Lemma unquoteKeys_string x t :
  dq ∉ x -> okTail t ->
  unquoteKeys (dq :: x ++ dq :: t) = dq :: x ++ dq :: unquoteKeys t.
Proof.
  intros Hx Ht. rewrite unquoteKeys_lit.
  - rewrite unquoteKeys_pre by done.
    by rewrite unquoteKeys_lit by by apply matchHere_closing.
  - unfold matchHere. rewrite bool_decide_eq_true_2 by done.
    rewrite spanKey_pre, spanKey_quote by done. simpl.
    rewrite app_nil_r. destruct x as [|c x]; [done|].
    destruct t as [|colon t]; [done|].
    rewrite bool_decide_eq_false_2; [done|].
    intros ->. by apply (proj1 Ht).
Qed.

Lemma unquoteKeys_key k t :
  k <> [] -> dq ∉ k ->
  unquoteKeys (dq :: k ++ dq :: ":" :: t) = k ++ ":" :: unquoteKeys t.
Proof.
  intros Hne Hk. apply unquoteKeys_match. unfold matchHere.
  rewrite bool_decide_eq_true_2 by done.
  rewrite spanKey_pre, spanKey_quote by done. simpl.
  rewrite app_nil_r. by destruct k.
Qed.

(** *** Escapes and numerals *)

Lemma hexDigit_chars n : Json.hexDigit n <> dq.
Proof.
  unfold Json.hexDigit. do 15 (destruct n as [|n]; [done|]). done.
Qed.

Lemma escapeChar_plain c : plainChar c = true -> Json.escapeChar c = [c].
Proof.
  unfold plainChar, Json.escapeChar.
  intros [[H1 H2]%andb_prop H3]%andb_prop.
  apply negb_true_iff, bool_decide_eq_false_1 in H1, H2, H3.
  repeat (rewrite bool_decide_eq_false_2; [|first [done|lia]]). done.
Qed.

Lemma escape_plain k :
  forallb plainChar k = true -> flat_map Json.escapeChar k = k.
Proof.
  induction k as [|c k IH]; [done|]. simpl.
  intros [Hc Hk]%andb_prop. by rewrite escapeChar_plain, IH.
Qed.

Lemma escapeChar_quiet c : c <> dq -> dq ∉ Json.escapeChar c.
Proof.
  intros Hc. unfold Json.escapeChar.
  repeat case_bool_decide; try done;
    rewrite ?not_elem_of_cons; split_all; try done;
    first [ apply not_elem_of_nil
          | apply not_eq_sym, hexDigit_chars
          | by apply not_eq_sym ].
Qed.

Lemma escapeChar_head c :
  c <> ":" -> head (Json.escapeChar c) <> Some ":".
Proof.
  intros Hc. unfold Json.escapeChar.
  unfold Json.backslash. repeat case_bool_decide; simpl; congruence.
Qed.

Lemma escapeChar_not_nil c : Json.escapeChar c <> [].
Proof. unfold Json.escapeChar. by repeat case_bool_decide. Qed.

Lemma quietText_spec s t :
  quietText s = true ->
  (dq ∉ flat_map Json.escapeChar s)
  /\ head (flat_map Json.escapeChar s ++ dq :: t) <> Some ":".
Proof.
  unfold quietText. intros [Hq Hc]%andb_prop. split.
  - clear Hc. induction s as [|c s IH]; [apply not_elem_of_nil|].
    simpl in *. apply andb_prop in Hq as [Hc Hs].
    apply negb_true_iff, bool_decide_eq_false_1 in Hc.
    rewrite not_elem_of_app. split; [by apply escapeChar_quiet|by apply IH].
  - destruct s as [|c s]; [done|]. simpl in *.
    apply negb_true_iff in Hc. rewrite andb_true_r in Hc.
    apply bool_decide_eq_false_1 in Hc.
    pose proof (escapeChar_head c) as Hh.
    pose proof (escapeChar_not_nil c) as Hn.
    destruct (Json.escapeChar c) as [|h r]; [done|]. simpl in *.
    apply Hh. congruence.
Qed.

Lemma bareKey_spec k :
  bareKey k = true ->
  k <> [] /\ head k <> Some ":" /\ (dq ∉ k)
  /\ flat_map Json.escapeChar k = k.
Proof.
  intros Hk. destruct k as [|c k]; [done|].
  apply andb_prop in Hk as [Hc Hp].
  apply negb_true_iff, bool_decide_eq_false_1 in Hc.
  split_all; [done|simpl; congruence| |by apply escape_plain].
  clear Hc. induction (c :: k) as [|x l IH]; [apply not_elem_of_nil|].
  simpl in Hp. apply andb_prop in Hp as [Hx Hl].
  rewrite not_elem_of_cons. split; [|by apply IH].
  unfold plainChar in Hx.
  apply andb_prop in Hx as [[Hx _]%andb_prop _].
  apply negb_true_iff in Hx. apply bool_decide_eq_false_1 in Hx.
  intros <-. by apply Hx.
Qed.

Lemma string_of_uint_chars d c :
  c ∈ list_ascii_of_string (NilEmpty.string_of_uint d) ->
  c <> dq /\ c <> ":".
Proof.
  induction d; simpl; rewrite ?elem_of_cons;
    try (intros [->|?]; [done|by apply IHd]).
  by intros ?%elem_of_nil.
Qed.

Lemma decimal_chars n c : c ∈ Json.decimal n -> c <> dq /\ c <> ":".
Proof.
  unfold Json.decimal, NilZero.string_of_int, NilZero.string_of_uint.
  destruct (Z.to_int n) as [d|d]; simpl; rewrite ?elem_of_cons.
  - destruct d; try apply string_of_uint_chars.
    simpl. rewrite elem_of_cons. intros [->|?%elem_of_nil]; done.
  - intros [->|H]; [done|].
    destruct d; try by apply string_of_uint_chars in H.
    simpl in H. apply elem_of_cons in H as [->|?%elem_of_nil]; done.
Qed.

Lemma decimal_quiet n : (dq ∉ Json.decimal n) /\ (":" ∉ Json.decimal n).
Proof.
  split; intros H%decimal_chars; by destruct H.
Qed.

(** *** The serialisation *)

Lemma join_unquoted {A} (f g : A -> str) sep items tail :
  dq ∉ sep -> ":" ∉ sep ->
  Forall (fun x => forall tail,
            okTail tail ->
            unquoteKeys (f x ++ tail) = g x ++ unquoteKeys tail
            /\ okTail (f x ++ tail)) items ->
  okTail tail ->
  unquoteKeys (Str.join sep (map f items) ++ tail)
  = Str.join sep (map g items) ++ unquoteKeys tail
  /\ okTail (Str.join sep (map f items) ++ tail).
Proof.
  intros Hq Hc Hitems Htail.
  induction Hitems as [|x l Hx Hl IH]; [done|].
  destruct l as [|y l]; [by apply Hx|].
  destruct IH as [IHu IHt].
  change (Str.join sep (map f (x :: y :: l)))
    with (f x ++ sep ++ Str.join sep (map f (y :: l))).
  change (Str.join sep (map g (x :: y :: l)))
    with (g x ++ sep ++ Str.join sep (map g (y :: l))).
  rewrite <- !app_assoc.
  assert (Ht : okTail (sep ++ Str.join sep (map f (y :: l)) ++ tail))
    by by apply okTail_pre.
  destruct (Hx _ Ht) as [Hu Hk]. split; [|done].
  by rewrite Hu, unquoteKeys_pre, IHu.
Qed.

Lemma stringifyWith_arr key indent x l :
  Json.stringifyWith key indent (JArr (x :: l))
  = ("[" :: Json.newline :: indent ++ $"  ")
      ++ Str.join ("," :: Json.newline :: indent ++ $"  ")
           (map (Json.stringifyWith key (indent ++ $"  ")) (x :: l))
      ++ (Json.newline :: indent ++ $"]").
Proof. simpl. by rewrite <- !app_assoc. Qed.

Lemma stringifyWith_obj key indent kv l :
  Json.stringifyWith key indent (JObj (kv :: l))
  = ("{" :: Json.newline :: indent ++ $"  ")
      ++ Str.join ("," :: Json.newline :: indent ++ $"  ")
           (map (fun kv => key (fst kv) ++ $": "
                             ++ Json.stringifyWith key (indent ++ $"  ")
                                  (snd kv)) (kv :: l))
      ++ (Json.newline :: indent ++ $"}").
Proof. simpl. by rewrite <- !app_assoc. Qed.

(** Proves that a character is not in a text made of known pieces. *)
Ltac no_char :=
  repeat first [rewrite not_elem_of_app | rewrite not_elem_of_cons];
  split_all;
  first [done | by apply not_eq_sym | apply not_elem_of_nil | compute_done].

Lemma bracketed_unquoted opening closing indent body body' tail :
  opening <> dq -> opening <> ":" -> closing <> dq -> closing <> ":" ->
  dq ∉ indent -> ":" ∉ indent -> okTail tail ->
  (forall tail,
      okTail tail ->
      unquoteKeys (body ++ tail) = body' ++ unquoteKeys tail
      /\ okTail (body ++ tail)) ->
  let before := opening :: Json.newline :: indent ++ $"  " in
  let after := Json.newline :: indent ++ [closing] in
  unquoteKeys ((before ++ body ++ after) ++ tail)
  = (before ++ body' ++ after) ++ unquoteKeys tail
  /\ okTail ((before ++ body ++ after) ++ tail).
Proof.
  intros Ho Ho' Hc Hc' Hiq Hic Htail Hbody before after.
  assert (Hbq : dq ∉ before) by (subst before; no_char).
  assert (Hbc : ":" ∉ before) by (subst before; no_char).
  assert (Haq : dq ∉ after) by (subst after; no_char).
  assert (Hac : ":" ∉ after) by (subst after; no_char).
  assert (Hafter : okTail (after ++ tail)) by by apply okTail_pre.
  destruct (Hbody _ Hafter) as [Hu Hk].
  rewrite <- !app_assoc. split; [|by apply okTail_pre].
  by rewrite unquoteKeys_pre, Hu, unquoteKeys_pre.
Qed.

Lemma field_unquoted k S S' tail :
  bareKey k = true -> okTail tail ->
  unquoteKeys (S ++ tail) = S' ++ unquoteKeys tail ->
  unquoteKeys ((Json.quote k ++ $": " ++ S) ++ tail)
  = (k ++ $": " ++ S') ++ unquoteKeys tail
  /\ okTail ((Json.quote k ++ $": " ++ S) ++ tail).
Proof.
  intros (Hne & Hhead & Hq & Hesc)%bareKey_spec Htail HS.
  unfold Json.quote. rewrite Hesc.
  change (((Json.dquote :: k ++ [Json.dquote]) ++ $": " ++ S) ++ tail)
    with (dq :: ((k ++ [dq]) ++ ":" :: " " :: S) ++ tail).
  rewrite <- !app_assoc. simpl. split.
  - rewrite unquoteKeys_key by done.
    change (" " :: S ++ tail) with ([" "] ++ S ++ tail).
    rewrite (unquoteKeys_pre [" "]) by no_char. simpl. by rewrite HS.
  - apply okTail_quoted. by destruct k.
Qed.

Lemma stringify_unquoted v :
  simple v = true ->
  forall indent tail,
    dq ∉ indent -> ":" ∉ indent -> okTail tail ->
    unquoteKeys (Json.stringifyWith Json.quote indent v ++ tail)
    = Json.stringifyWith (fun k => k) indent v ++ unquoteKeys tail
    /\ okTail (Json.stringifyWith Json.quote indent v ++ tail).
Proof.
  induction v as [| b | n | s | items IH | fields IH] using json_nested_ind;
    intros Hv indent tail Hiq Hic Htail.
  - split; [by apply unquoteKeys_pre; compute_done|].
    apply okTail_pre; [compute_done|compute_done|done].
  - destruct b; (split; [by apply unquoteKeys_pre; compute_done|]);
      (apply okTail_pre; [compute_done|compute_done|done]).
  - destruct (decimal_quiet n). simpl.
    split; [by apply unquoteKeys_pre|by apply okTail_pre].
  - destruct (quietText_spec s tail Hv) as [Hq Hh].
    unfold Json.stringifyWith, Json.quote. rewrite <- !app_comm_cons.
    rewrite <- !app_assoc. simpl.
    split; [by apply unquoteKeys_string|by apply okTail_quoted].
  - destruct items as [|x l].
    { split; [by apply unquoteKeys_pre; compute_done|].
      apply okTail_pre; [compute_done|compute_done|done]. }
    rewrite !stringifyWith_arr.
    apply bracketed_unquoted; try done.
    intros tail' Htail'. apply join_unquoted; [no_char|no_char| |done].
    clear Htail Htail'. simpl in Hv.
    change (forallb simple (x :: l) = true) in Hv.
    induction IH as [|y l' Hy Hl IHl]; [constructor|].
    simpl in Hv. apply andb_prop in Hv as [Hy' Hl'].
    constructor; [|by apply IHl].
    intros t Ht. apply Hy; [done|no_char|no_char|done].
  - destruct fields as [|kv l].
    { split; [by apply unquoteKeys_pre; compute_done|].
      apply okTail_pre; [compute_done|compute_done|done]. }
    rewrite !stringifyWith_obj.
    apply bracketed_unquoted; try done.
    intros tail' Htail'. apply join_unquoted; [no_char|no_char| |done].
    clear Htail Htail'.
    change (forallb (fun kv => bareKey (fst kv) && simple (snd kv))
              (kv :: l) = true) in Hv.
    induction IH as [|[k y] l' Hy Hl IHl]; [constructor|].
    simpl in Hv. apply andb_prop in Hv as [[Hk Hy']%andb_prop Hl'].
    constructor; [|by apply IHl].
    intros t Ht. simpl fst. simpl snd.
    destruct (Hy Hy' (indent ++ $"  ") t) as [Hu Hok];
      [no_char|no_char|done|].
    by apply field_unquoted.
Qed.

End ConfigFacts.

Section ConfigContent.
Import ConfigSpec ConfigFacts.

(** X18.  On a configuration whose keys are bare and whose strings are
    quiet, the content [updateConfigFile] writes is the serialisation with
    the quotes of the keys removed and nothing else changed. *)
Theorem configContent_of_simple_config (c : Config) :
  simple (JObj c) = true ->
  configContent c = specConfigContent c.
Proof.
  intros Hc. unfold configContent, specConfigContent, Json.stringify.
  f_equal.
  destruct (stringify_unquoted (JObj c) Hc [] []) as [Hu _];
    [apply not_elem_of_nil|apply not_elem_of_nil|apply okTail_nil|].
  by rewrite !app_nil_r in Hu.
Qed.

End ConfigContent.

Lemma configContent_of_simple_config_witness :
  configContent ConfigSpec.plainConfig
  = specConfigContent ConfigSpec.plainConfig.
Proof.
  apply configContent_of_simple_config. vm_compute. reflexivity.
Defined.
